(** * An intrusive doubly-linked list (dlist.h, offset.h)

    A shallow embedding of the generic list engine of [dlist.h], of the
    typed surface generated by [DEFINE_DLIST] and of the container lookup
    of [offset.h], with the properties of the specification proved on it.

    Memory is a finite map from addresses to link nodes; the list handle
    is a pair of addresses.  Every C function becomes a computation in a
    state-and-error monad: dereferencing [NULL] or an address that holds
    no node is a [Fault], a failed [assert] is [AssertFail], a call of
    [panic] is [Panic].  The three loops ([dlist_check] and the two folds)
    take fuel, and every result about them gives the fuel for which they
    return. *)

From stdpp Require Import gmap strings list.

Open Scope Z_scope.

(** ** Data model *)

(** Addresses.  The absent reference is the null pointer. *)
Definition ptr := Z.
Definition NULL : ptr := 0.

(** [struct dlist_node_struct { next; prev; }] *)
Record dlist_node_t := mk_node { next : ptr; prev : ptr }.

(** [struct { head; tail; } dlist_t] *)
Record dlist_t := mk_root { head : ptr; tail : ptr }.

(** The handle under operation, and the link nodes that are alive. *)
Record state := mk_state { root : dlist_t; mem : gmap Z dlist_node_t }.

(** The magic that [dlist_destroy] drops into the handle. *)
Definition POISON : ptr := 0xdeadbeef.

(** ** The monad of C computations *)

Inductive outcome (A : Type) : Type :=
| Ok (a : A)
| AssertFail
| Panic (msg : string)
| Fault
| OutOfFuel.
Arguments Ok {A} a.
Arguments AssertFail {A}.
Arguments Panic {A} msg.
Arguments Fault {A}.
Arguments OutOfFuel {A}.

Definition M (A : Type) : Type := state → outcome (A * state).

#[global] Instance M_ret : MRet M := λ A a s, Ok (a, s).

#[global] Instance M_bind : MBind M := λ A B k m s,
  match m s with
  | Ok (a, s') => k a s'
  | AssertFail => AssertFail
  | Panic msg => Panic msg
  | Fault => Fault
  | OutOfFuel => OutOfFuel
  end.

(** [assert(c)] *)
Definition assert (c : bool) : M unit :=
  λ s, if c then Ok (tt, s) else AssertFail.

(** Modelled from the spec: [panic.h] is not part of the sources; the
    abort primitive terminates the process and never returns. *)
Definition panic {A} (msg : string) : M A := λ _, Panic msg.

(** [root->head], [root->tail] *)
Definition get_head : M ptr := λ s, Ok (head (root s), s).
Definition get_tail : M ptr := λ s, Ok (tail (root s), s).

(** [root->head = p], [root->tail = p] *)
Definition set_head (p : ptr) : M unit :=
  λ s, Ok (tt, mk_state (mk_root p (tail (root s))) (mem s)).
Definition set_tail (p : ptr) : M unit :=
  λ s, Ok (tt, mk_state (mk_root (head (root s)) p) (mem s)).

(** The node an address refers to, if any. *)
Definition deref (h : gmap Z dlist_node_t) (p : ptr) : option dlist_node_t :=
  if p =? NULL then None else h !! p.

(** [p->next], [p->prev] *)
Definition load_next (p : ptr) : M ptr :=
  λ s, match deref (mem s) p with
       | Some n => Ok (next n, s)
       | None => Fault
       end.
Definition load_prev (p : ptr) : M ptr :=
  λ s, match deref (mem s) p with
       | Some n => Ok (prev n, s)
       | None => Fault
       end.

(** [p->next = v], [p->prev = v] *)
Definition store_next (p v : ptr) : M unit :=
  λ s, match deref (mem s) p with
       | Some n => Ok (tt, mk_state (root s) (<[p := mk_node v (prev n)]> (mem s)))
       | None => Fault
       end.
Definition store_prev (p v : ptr) : M unit :=
  λ s, match deref (mem s) p with
       | Some n => Ok (tt, mk_state (root s) (<[p := mk_node (next n) v]> (mem s)))
       | None => Fault
       end.

(** ** offset.h *)

(** [GET_CONTAINER(var, con_type, name)], with [off] standing for
    [OFFSET(con_type, name)]: the address [off] bytes before [var]. *)
Definition GET_CONTAINER (var : ptr) (off : Z) : ptr := var - off.

(** [&(data->metaname)]: the address [off] bytes after [data]. *)
Definition field_addr (data : ptr) (off : Z) : ptr := data + off.

(** ** The list engine *)

Definition nl : string := String (Ascii.ascii_of_nat 10) EmptyString.

Definition dlist_init : M unit :=
  set_head NULL;;
  set_tail NULL.

Definition dlist_destroy : M unit :=
  h ← get_head;
  (if negb (h =? NULL)
   then panic ("dlist_destroy: root->head is non-null" +:+ nl)
   else mret tt);;
  t ← get_tail;
  (if negb (t =? NULL)
   then panic ("dlist_destroy: root->head is non-null" +:+ nl)
   else mret tt);;
  set_head POISON;;
  set_tail POISON.

Definition dlist_enqueue (data : ptr) : M unit :=
  store_prev data NULL;;
  old_head ← get_head;
  store_next data old_head;;
  (if old_head =? NULL
   then (t ← get_tail;
         assert (t =? NULL);;
         set_tail data)
   else (p ← load_prev old_head;
         assert (p =? NULL);;
         store_prev old_head data));;
  set_head data.

Definition dlist_pushback (data : ptr) : M unit :=
  store_next data NULL;;
  old_tail ← get_tail;
  store_prev data old_tail;;
  (if old_tail =? NULL
   then (h ← get_head;
         assert (h =? NULL);;
         set_head data)
   else (n ← load_next old_tail;
         assert (n =? NULL);;
         store_next old_tail data));;
  set_tail data.

Definition dlist_push (data : ptr) : M unit :=
  dlist_enqueue data.

Definition dlist_dequeue : M ptr :=
  t ← get_tail;
  if t =? NULL then mret NULL
  else
    let retnode := t in
    p ← load_prev retnode;
    set_tail p;;
    h ← get_head;
    (if h =? retnode
     then set_head NULL
     else (t' ← get_tail; store_next t' NULL));;
    mret retnode.

Definition dlist_pop : M ptr :=
  h ← get_head;
  if h =? NULL then mret NULL
  else
    let retnode := h in
    n ← load_next retnode;
    set_head n;;
    t ← get_tail;
    (if t =? retnode
     then set_tail NULL
     else (h' ← get_head; store_prev h' NULL));;
    mret retnode.

Definition dlist_remove (data : ptr) : M unit :=
  p ← load_prev data;
  (if negb (p =? NULL)
   then (n ← load_next data; store_next p n)
   else (h ← get_head;
         assert (h =? data);;
         n ← load_next data;
         set_head n));;
  n ← load_next data;
  (if negb (n =? NULL)
   then (p' ← load_prev data; store_prev n p')
   else (t ← get_tail;
         assert (t =? data);;
         p' ← load_prev data;
         set_tail p')).

Definition dlist_head : M ptr := get_head.

Definition dlist_tail : M ptr := get_tail.

(** The loop of [dlist_check], entered with the current [ptr] and
    [last_ptr]; the assertion after the loop is its exit. *)
Fixpoint dlist_check_loop (fuel : nat) (p last_ptr : ptr) : M unit :=
  match fuel with
  | O => λ _, OutOfFuel
  | S fuel' =>
      if p =? NULL
      then (t ← get_tail; assert (last_ptr =? t))
      else
        (if negb (last_ptr =? NULL)
         then (n ← load_next last_ptr;
               assert (n =? p);;
               q ← load_prev p;
               assert (last_ptr =? q))
         else (q ← load_prev p;
               assert (q =? NULL)));;
        n ← load_next p;
        dlist_check_loop fuel' n p
  end.

Definition dlist_check (fuel : nat) : M unit :=
  h ← get_head;
  dlist_check_loop fuel h NULL.

(** ** The typed surface, [DEFINE_DLIST(type, metaname)] *)

Section Binding.
(** [OFFSET(type, metaname)]: where the link node sits in the record. *)
Variable off : Z.

Definition dlist_T_init : M unit := dlist_init.

Definition dlist_T_destroy : M unit := dlist_destroy.

Definition dlist_T_check (fuel : nat) : M unit := dlist_check fuel.

Definition dlist_T_enqueue (data : ptr) : M unit :=
  dlist_enqueue (field_addr data off).

Definition dlist_T_pushback (data : ptr) : M unit :=
  dlist_pushback (field_addr data off).

Definition dlist_T_push (data : ptr) : M unit :=
  dlist_push (field_addr data off).

Definition dlist_T_dequeue : M ptr :=
  r ← dlist_dequeue; mret (GET_CONTAINER r off).

Definition dlist_T_pop : M ptr :=
  r ← dlist_pop; mret (GET_CONTAINER r off).

Definition dlist_T_remove (data : ptr) : M unit :=
  dlist_remove (field_addr data off).

Definition dlist_T_head : M ptr :=
  r ← dlist_head; mret (GET_CONTAINER r off).

Definition dlist_T_tail : M ptr :=
  r ← dlist_tail; mret (GET_CONTAINER r off).

(** The link nodes of a sequence of records, and the records of a
    sequence of link nodes. *)
Definition links (recs : list ptr) : list ptr :=
  map (λ r, field_addr r off) recs.

Definition records (l : list ptr) : list ptr :=
  map (λ p, GET_CONTAINER p off) l.

Section Fold.
(** [A] is what the accumulator [void *] stands for, [E] whatever
    else the reducer reads and writes (counters, output, the records'
    payload).  A reducer [void *(*func)(type*, void*, char*)] takes the
    record, the accumulator and its own state and gives the new
    accumulator, whether it set [*terminate], and its new state.  It
    has no access to the links. *)
Context {A E : Type}.

Definition reducer : Type := ptr → A → E → A * bool * E.

Fixpoint foldr_loop (fuel : nat) (func : reducer)
    (h : gmap Z dlist_node_t) (p : ptr) (result : A) (e : E)
    : outcome (A * E) :=
  match fuel with
  | O => OutOfFuel
  | S fuel' =>
      if p =? NULL then Ok (result, e)
      else
        let '(result', terminate, e') :=
          func (GET_CONTAINER p off) result e in
        if (terminate : bool) then Ok (result', e')
        else match deref h p with
             | Some n => foldr_loop fuel' func h (next n) result' e'
             | None => Fault
             end
  end.

Definition dlist_T_foldr (fuel : nat) (func : reducer) (init : A)
    (s : state) (e : E) : outcome (A * E) :=
  foldr_loop fuel func (mem s) (head (root s)) init e.

Fixpoint foldl_loop (fuel : nat) (func : reducer)
    (h : gmap Z dlist_node_t) (p : ptr) (result : A) (e : E)
    : outcome (A * E) :=
  match fuel with
  | O => OutOfFuel
  | S fuel' =>
      if p =? NULL then Ok (result, e)
      else
        let '(result', terminate, e') :=
          func (GET_CONTAINER p off) result e in
        if (terminate : bool) then Ok (result', e')
        else match deref h p with
             | Some n => foldl_loop fuel' func h (prev n) result' e'
             | None => Fault
             end
  end.

Definition dlist_T_foldl (fuel : nat) (func : reducer) (init : A)
    (s : state) (e : E) : outcome (A * E) :=
  foldl_loop fuel func (mem s) (tail (root s)) init e.

(** What a fold computes, told on the sequence of records it is to
    visit: call the reducer on each in turn, stop at the first call
    that sets the signal. *)
Fixpoint reduce (func : reducer) (rs : list ptr) (a : A) (e : E) : A * E :=
  match rs with
  | [] => (a, e)
  | r :: rs' =>
      let '(a', terminate, e') := func r a e in
      if (terminate : bool) then (a', e') else reduce func rs' a' e'
  end.

(** The reducer runs over [rs] without ever setting the signal. *)
Fixpoint quiet (func : reducer) (rs : list ptr) (a : A) (e : E)
    : option (A * E) :=
  match rs with
  | [] => Some (a, e)
  | r :: rs' =>
      let '(a', terminate, e') := func r a e in
      if (terminate : bool) then None else quiet func rs' a' e'
  end.

(** The reducer sets the signal on the [k]-th record of [rs], not
    before, and that call produces [a'] and [e']. *)
Definition fires_at (func : reducer) (rs : list ptr) (a : A) (e : E)
    (k : nat) (a' : A) (e' : E) : Prop :=
  ∃ j r a1 e1,
    k = S j ∧ quiet func (take j rs) a e = Some (a1, e1) ∧
    rs !! j = Some r ∧ func r a1 e1 = (a', true, e').

(** The same reducer, made to note every record it is called on. *)
Definition traced (func : reducer) : ptr → A → E * list ptr → A * bool * (E * list ptr) :=
  λ r a et,
    let '(a', terminate, e') := func r a et.1 in
    (a', terminate, (e', et.2 ++ [r])).
End Fold.
End Binding.

(** ** Sequences of operations *)

Inductive op : Type :=
| OpEnqueue (data : ptr)
| OpPushback (data : ptr)
| OpPush (data : ptr)
| OpPop
| OpDequeue
| OpRemove (data : ptr).

Definition exec (o : op) : M unit :=
  match o with
  | OpEnqueue data => dlist_enqueue data
  | OpPushback data => dlist_pushback data
  | OpPush data => dlist_push data
  | OpPop => _ ← dlist_pop; mret tt
  | OpDequeue => _ ← dlist_dequeue; mret tt
  | OpRemove data => dlist_remove data
  end.

Fixpoint exec_all (ops : list op) : M unit :=
  match ops with
  | [] => mret tt
  | o :: ops' => exec o;; exec_all ops'
  end.

(** [dlist_init], then the operations in order. *)
Definition run (ops : list op) : M unit :=
  dlist_init;; exec_all ops.

(** The nodes a list holds, front to back, as the operations leave them. *)
Definition apply_op (o : op) (l : list ptr) : list ptr :=
  match o with
  | OpEnqueue data | OpPush data => data :: l
  | OpPushback data => l ++ [data]
  | OpPop => List.tl l
  | OpDequeue => removelast l
  | OpRemove data => filter (λ y, y ≠ data) l
  end.

Definition contents_from (l : list ptr) (ops : list op) : list ptr :=
  fold_left (λ l o, apply_op o l) ops l.

Definition contents (ops : list op) : list ptr := contents_from [] ops.

(** The caller's side of the contract: a node handed to an insertion is a
    live node that is not linked in the list, a node handed to
    [dlist_remove] is linked in it. *)
Definition valid_node (h : gmap Z dlist_node_t) (x : ptr) : Prop :=
  x ≠ NULL ∧ is_Some (h !! x).

Definition legal_op (h : gmap Z dlist_node_t) (l : list ptr) (o : op) : Prop :=
  match o with
  | OpEnqueue data | OpPush data | OpPushback data => valid_node h data ∧ data ∉ l
  | OpRemove data => data ∈ l
  | OpPop | OpDequeue => True
  end.

Fixpoint legal_from (h : gmap Z dlist_node_t) (l : list ptr) (ops : list op) : Prop :=
  match ops with
  | [] => True
  | o :: ops' => legal_op h l o ∧ legal_from h (apply_op o l) ops'
  end.

Definition legal (h : gmap Z dlist_node_t) (ops : list op) : Prop :=
  legal_from h [] ops.

(** Whether a sequence keeps to the contract can be computed. *)
#[global] Instance valid_node_dec h x : Decision (valid_node h x).
Proof. unfold valid_node. apply _. Defined.

#[global] Instance legal_op_dec h l o : Decision (legal_op h l o).
Proof. destruct o; simpl; apply _. Defined.

#[global] Instance legal_from_dec h l ops : Decision (legal_from h l ops).
Proof. revert l. induction ops; intros l; simpl; apply _. Defined.

#[global] Instance legal_dec h ops : Decision (legal h ops).
Proof. unfold legal. apply _. Defined.

(** ** The representation invariant *)

(** [chain h prv l nxt]: the nodes [l] are linked to one another in this
    order, the first one's [prev] is [prv], the last one's [next] is
    [nxt]. *)
Fixpoint chain (h : gmap Z dlist_node_t) (prv : ptr) (l : list ptr) (nxt : ptr) : Prop :=
  match l with
  | [] => True
  | x :: l' =>
      x ≠ NULL ∧ h !! x = Some (mk_node (hd nxt l') prv) ∧ chain h x l' nxt
  end.

(** The handle and the memory of [s] hold the list [l], front to back. *)
Definition dll (s : state) (l : list ptr) : Prop :=
  head (root s) = hd NULL l ∧
  tail (root s) = List.last l NULL ∧
  chain (mem s) NULL l NULL ∧
  NoDup l.

(** What a removal of [x] may do to the memory: [x] itself keeps its two
    links, and so does every node that [x] does not point at. *)
Definition removal_frame (s s' : state) (x : ptr) : Prop :=
  mem s' !! x = mem s !! x ∧
  ∀ n y, mem s !! x = Some n → y ≠ next n → y ≠ prev n →
         mem s' !! y = mem s !! y.

(** The nodes of the records [recs] can be inserted into the list [l]:
    the records are distinct, their nodes alive and not linked in [l]. *)
Definition insertable (off : Z) (h : gmap Z dlist_node_t) (l recs : list ptr)
    : Prop :=
  NoDup recs ∧
  Forall (λ r, valid_node h (field_addr r off) ∧ field_addr r off ∉ l) recs.


(** ** Loops of a caller *)

(** Insert the records one after the other. *)
Fixpoint insert_all (ins : ptr → M unit) (recs : list ptr) : M unit :=
  match recs with
  | [] => mret tt
  | r :: recs' => ins r;; insert_all ins recs'
  end.

(** Remove [n] times, and collect what the removals return. *)
Fixpoint remove_n (rem : M ptr) (n : nat) : M (list ptr) :=
  match n with
  | O => mret []
  | S n' => r ← rem; rs ← remove_n rem n'; mret (r :: rs)
  end.

(** [init], insert [recs], remove as many. *)
Definition roundtrip (ins : ptr → M unit) (rem : M ptr) (recs : list ptr)
    : M (list ptr) :=
  dlist_init;; insert_all ins recs;; remove_n rem (length recs).

(** [init], push back [recs], then [pop], [dequeue], [head], [tail]. *)
Definition scenario_B (off : Z) (recs : list ptr) : M (ptr * ptr * ptr * ptr) :=
  dlist_T_init;;
  insert_all (dlist_T_pushback off) recs;;
  p ← dlist_T_pop off;
  d ← dlist_T_dequeue off;
  h ← dlist_T_head off;
  t ← dlist_T_tail off;
  mret (p, d, h, t).

(** ** A sample memory *)

(** [n] nodes fresh from the allocator, at the addresses 16, 32, ...,
    with whatever the allocator left in them, and a handle that nobody
    has initialised. *)
Definition sample_mem (n : nat) : gmap Z dlist_node_t :=
  list_to_map (map (λ i, (16 * Z.of_nat i, mk_node 170 85)) (seq 1 n)).

Definition sample_state (n : nat) : state :=
  mk_state (mk_root 7 9) (sample_mem n).

(** Three of them linked into a list, 16 at the front and 48 at the back. *)
Definition linked3 : state :=
  mk_state (mk_root 16 48)
    (list_to_map [(16, mk_node 32 NULL); (32, mk_node 48 16); (48, mk_node NULL 32)]).

(** The reducer [is_5] of the unit test, for a payload [data]: it stops at
    the record that holds [v] and returns it. *)
Definition is_value (data : ptr → Z) (v : Z) : @reducer ptr unit :=
  λ n _ e, if data n =? v then (n, true, e) else (NULL, false, e).

(** A reducer that counts its calls and stops the fold at the [n]-th. *)
Definition stop_after (n : nat) : @reducer ptr nat :=
  λ r _ c, (r, Nat.eqb (S c) n, S c).

(** A reducer that visits everything, like [print_node]. *)
Definition visit_all : @reducer ptr unit := λ _ _ e, (NULL, false, e).

(** The reducers [is_5], [is_16] and [is_38] of the unit test, for a
    payload [data] and a value [v] looked for: the record that holds [v]
    stops the fold and is returned; for any other record the reducer
    returns [miss], which is 0 in [is_5] and 0xdeadbeef in the other
    two. *)
Definition is_value_or (data : ptr → Z) (v : Z) (miss : ptr) : @reducer ptr unit :=
  λ n _ e, if data n =? v then (n, true, e) else (miss, false, e).

(** ** Lists: first and last elements *)

Lemma dlast_cons_cons {A} (x y : A) (l : list A) (d : A) :
  List.last (x :: y :: l) d = List.last (y :: l) d.
Proof. reflexivity. Qed.

Lemma dlast_cons {A} (x : A) (l : list A) (d : A) :
  List.last (x :: l) d = List.last l x.
Proof.
  revert x d. induction l as [|y l IH]; intros x d; [reflexivity|].
  rewrite dlast_cons_cons. by rewrite !IH.
Qed.

Lemma dlast_snoc {A} (l : list A) (x d : A) : List.last (l ++ [x]) d = x.
Proof. apply List.last_last. Qed.

Lemma dlast_app_cons {A} (l1 l2 : list A) (x d : A) :
  List.last (l1 ++ x :: l2) d = List.last (x :: l2) d.
Proof.
  induction l1 as [|a l1 IH]; [done|].
  rewrite <- app_comm_cons. destruct (l1 ++ x :: l2) as [|b l] eqn:E.
  - by destruct l1.
  - rewrite dlast_cons_cons. by rewrite <- IH.
Qed.

Lemma dlast_elem_of {A} (l : list A) (d : A) : l ≠ [] → List.last l d ∈ l.
Proof.
  induction l as [|x l IH]; [done|]. intros _.
  destruct l as [|y l]; [simpl; left|].
  rewrite dlast_cons_cons. right. by apply IH.
Qed.

Lemma hd_app_default {A} (l1 l2 : list A) (d : A) : hd d (l1 ++ l2) = hd (hd d l2) l1.
Proof. by destruct l1. Qed.

Lemma tl_snoc_nonempty {A} (l : list A) (x : A) :
  l ≠ [] → List.tl (l ++ [x]) = List.tl l ++ [x].
Proof. by destruct l. Qed.

Lemma removelast_snoc {A} (l : list A) (x : A) : removelast (l ++ [x]) = l.
Proof. apply List.removelast_last. Qed.

Lemma snoc_cases {A} (l : list A) : l = [] ∨ ∃ l' x, l = l' ++ [x].
Proof.
  destruct l as [|y l] using rev_ind; [by left|]. right. by exists l, y.
Qed.

Lemma filter_ne_notin (x : ptr) (l : list ptr) :
  x ∉ l → filter (λ y, y ≠ x) l = l.
Proof.
  induction l as [|y l IH]; [done|]. intros Hx.
  apply not_elem_of_cons in Hx as [Hne Hx].
  rewrite filter_cons_True by done. by rewrite IH.
Qed.

Lemma filter_ne_middle (x : ptr) (l1 l2 : list ptr) :
  NoDup (l1 ++ x :: l2) → filter (λ y, y ≠ x) (l1 ++ x :: l2) = l1 ++ l2.
Proof.
  intros Hnd. apply NoDup_app in Hnd as (_ & Hdis & Hnd2).
  apply NoDup_cons in Hnd2 as [Hx2 _].
  rewrite filter_app, filter_cons_False by (intros H; by apply H).
  rewrite !filter_ne_notin; [done|done|].
  intros Hx1. apply (Hdis x Hx1). left.
Qed.

(** ** Chains *)

Lemma chain_app h prv l1 l2 nxt :
  chain h prv (l1 ++ l2) nxt ↔
  chain h prv l1 (hd nxt l2) ∧ chain h (List.last l1 prv) l2 nxt.
Proof.
  revert prv. induction l1 as [|x l1 IH]; intros prv.
  - simpl. tauto.
  - rewrite dlast_cons. simpl chain.
    rewrite hd_app_default, (IH x). tauto.
Qed.

Lemma chain_snoc h prv l y nxt :
  chain h prv (l ++ [y]) nxt ↔
  chain h prv l y ∧ y ≠ NULL ∧ h !! y = Some (mk_node nxt (List.last l prv)).
Proof. rewrite chain_app. simpl. tauto. Qed.

Lemma chain_frame h h' prv l nxt :
  (∀ x, x ∈ l → h' !! x = h !! x) → chain h prv l nxt → chain h' prv l nxt.
Proof.
  revert prv. induction l as [|x l IH]; intros prv Hfr; [done|].
  simpl. intros (Hx & Hlk & Hch). split_and!; [done| |].
  - rewrite Hfr; [done|left].
  - apply IH; [|done]. intros y Hy. apply Hfr. by right.
Qed.

Lemma chain_insert_notin h prv l nxt x n :
  x ∉ l → chain h prv l nxt → chain (<[x := n]> h) prv l nxt.
Proof.
  intros Hx. apply chain_frame. intros y Hy.
  apply lookup_insert_ne. intros ->. done.
Qed.

Lemma chain_valid h prv l nxt x :
  chain h prv l nxt → x ∈ l → x ≠ NULL ∧ is_Some (h !! x).
Proof.
  revert prv. induction l as [|y l IH]; intros prv Hch Hx.
  - by apply elem_of_nil in Hx.
  - destruct Hch as (Hy & Hlk & Hch). apply elem_of_cons in Hx as [->|Hx].
    + split; [done|by eexists].
    + by apply (IH y).
Qed.

(** Pointing the first node's [prev] elsewhere. *)
Lemma chain_set_prev h prv prv' y l nxt :
  y ∉ l → chain h prv (y :: l) nxt →
  chain (<[y := mk_node (hd nxt l) prv']> h) prv' (y :: l) nxt.
Proof.
  intros Hy (Hne & Hlk & Hch). simpl. split_and!; [done| |].
  - apply lookup_insert_eq.
  - by apply chain_insert_notin.
Qed.

(** Pointing the last node's [next] elsewhere. *)
Lemma chain_set_next h prv l y nxt nxt' :
  y ∉ l → chain h prv (l ++ [y]) nxt →
  chain (<[y := mk_node nxt' (List.last l prv)]> h) prv (l ++ [y]) nxt'.
Proof.
  intros Hy. rewrite !chain_snoc. intros (Hch & Hne & Hlk). split_and!; [|done|].
  - by apply chain_insert_notin.
  - apply lookup_insert_eq.
Qed.

Lemma deref_Some h x n : x ≠ NULL → h !! x = Some n → deref h x = Some n.
Proof.
  intros Hne Hlk. unfold deref. by destruct (Z.eqb_spec x NULL).
Qed.

Lemma deref_chain_hd h prv x l nxt :
  chain h prv (x :: l) nxt → deref h x = Some (mk_node (hd nxt l) prv).
Proof. intros (Hne & Hlk & _). by apply deref_Some. Qed.

Lemma deref_chain_last h prv l y nxt :
  chain h prv (l ++ [y]) nxt → deref h y = Some (mk_node nxt (List.last l prv)).
Proof. rewrite chain_snoc. intros (_ & Hne & Hlk). by apply deref_Some. Qed.

(** ** Running a computation step by step *)

Lemma eqb_ne (x y : Z) : x ≠ y → (x =? y) = false.
Proof. apply Z.eqb_neq. Qed.

Section Steps.
Context {B : Type}.
Implicit Types (k : unit → M B) (kp : ptr → M B).

Lemma bind_assoc {A1 A2} (m : M A1) (f : A1 → M A2) (g : A2 → M B) s :
  ((m ≫= f) ≫= g) s = (m ≫= λ x, f x ≫= g) s.
Proof. unfold mbind, M_bind. by destruct (m s) as [[a s']| | | |]. Qed.

Lemma bind_ret {A1} (a : A1) (f : A1 → M B) s : (mret a ≫= f) s = f a s.
Proof. reflexivity. Qed.

Lemma bind_get_head kp r h :
  (get_head ≫= kp) (mk_state r h) = kp (head r) (mk_state r h).
Proof. reflexivity. Qed.

Lemma bind_get_tail kp r h :
  (get_tail ≫= kp) (mk_state r h) = kp (tail r) (mk_state r h).
Proof. reflexivity. Qed.

Lemma bind_set_head p k hd tl h :
  (set_head p ≫= k) (mk_state (mk_root hd tl) h) = k tt (mk_state (mk_root p tl) h).
Proof. reflexivity. Qed.

Lemma bind_set_tail p k hd tl h :
  (set_tail p ≫= k) (mk_state (mk_root hd tl) h) = k tt (mk_state (mk_root hd p) h).
Proof. reflexivity. Qed.

Lemma bind_assert_true k s : (assert true ≫= k) s = k tt s.
Proof. reflexivity. Qed.

Lemma bind_load_next p n kp r h :
  deref h p = Some n →
  (load_next p ≫= kp) (mk_state r h) = kp (next n) (mk_state r h).
Proof. intros H. unfold mbind, M_bind, load_next. simpl. by rewrite H. Qed.

Lemma bind_load_prev p n kp r h :
  deref h p = Some n →
  (load_prev p ≫= kp) (mk_state r h) = kp (prev n) (mk_state r h).
Proof. intros H. unfold mbind, M_bind, load_prev. simpl. by rewrite H. Qed.

Lemma bind_store_next p v n k r h :
  deref h p = Some n →
  (store_next p v ≫= k) (mk_state r h) =
  k tt (mk_state r (<[p := mk_node v (prev n)]> h)).
Proof. intros H. unfold mbind, M_bind, store_next. simpl. by rewrite H. Qed.

Lemma bind_store_prev p v n k r h :
  deref h p = Some n →
  (store_prev p v ≫= k) (mk_state r h) =
  k tt (mk_state r (<[p := mk_node (next n) v]> h)).
Proof. intros H. unfold mbind, M_bind, store_prev. simpl. by rewrite H. Qed.
End Steps.

Lemma run_store_next p v n r h :
  deref h p = Some n →
  store_next p v (mk_state r h) = Ok (tt, mk_state r (<[p := mk_node v (prev n)]> h)).
Proof. intros H. unfold store_next. simpl. by rewrite H. Qed.

Lemma run_store_prev p v n r h :
  deref h p = Some n →
  store_prev p v (mk_state r h) = Ok (tt, mk_state r (<[p := mk_node (next n) v]> h)).
Proof. intros H. unfold store_prev. simpl. by rewrite H. Qed.

Lemma deref_insert_eq h p n : p ≠ NULL → deref (<[p := n]> h) p = Some n.
Proof. intros Hp. apply deref_Some; [done|apply lookup_insert_eq]. Qed.

Lemma deref_insert_ne h p q n : p ≠ q → deref (<[p := n]> h) q = deref h q.
Proof.
  intros Hpq. unfold deref. destruct (q =? NULL); [done|].
  by apply lookup_insert_ne.
Qed.

Ltac mrun :=
  repeat (cbn [head tail next prev root mem hd negb];
          first
            [ rewrite bind_assoc | rewrite bind_ret | rewrite bind_get_head
            | rewrite bind_get_tail | rewrite bind_set_head
            | rewrite bind_set_tail | rewrite bind_assert_true
            | rewrite Z.eqb_refl ]);
  cbn [head tail next prev root mem hd negb].

Lemma pop_spec s l :
  dll s l →
  ∃ s', dlist_pop s = Ok (hd NULL l, s') ∧ dll s' (List.tl l) ∧
        dom (mem s') = dom (mem s) ∧
        removal_frame s s' (hd NULL l).
Proof.
  destruct s as [[hd0 tl0] h]. intros (Hhd & Htl & Hch & Hnd). simpl in Hhd, Htl, Hch. subst.
  unfold dlist_pop. mrun.
  destruct l as [|x l].
  - eexists. split; [reflexivity|]. done.
  - pose proof Hch as (Hx & Hlk & Hch'). cbn [hd]. 
    rewrite (eqb_ne x NULL) by done.
    rewrite (bind_load_next _ _ _ _ _ (deref_chain_hd _ _ _ _ _ Hch)). mrun.
    apply NoDup_cons in Hnd as [Hxl Hnd].
    destruct l as [|y l]. 
    + change (List.last [x] NULL) with x. rewrite Z.eqb_refl. mrun.
      eexists. split; [reflexivity|]. simpl.
      split; [|done]. split_and!; [done..|constructor].
    + rewrite dlast_cons_cons.
      rewrite (eqb_ne (List.last (y :: l) NULL) x).
      2:{ intros Heq. apply Hxl. rewrite <- Heq. by apply dlast_elem_of. }
      mrun. cbn [hd].
      rewrite (bind_store_prev _ _ _ _ _ _ (deref_chain_hd _ _ _ _ _ Hch')). mrun.
      eexists. split; [reflexivity|]. simpl. 
      apply NoDup_cons in Hnd as Hnd'. destruct Hnd' as [Hyl Hnd'].
      split_and!.
      * split_and!; simpl; [done|done| |done].
        by apply (chain_set_prev _ x).
      * apply dom_insert_lookup_L. destruct Hch' as (_ & -> & _). done.
      * split; cbn [mem].
        -- apply lookup_insert_ne. intros ->. apply Hxl. left.
        -- intros n w Hn Hw _. rewrite Hlk in Hn. injection Hn as <-.
           by apply lookup_insert_ne.
Qed.

Lemma dequeue_spec s l :
  dll s l →
  ∃ s', dlist_dequeue s = Ok (List.last l NULL, s') ∧ dll s' (removelast l) ∧
        dom (mem s') = dom (mem s) ∧
        removal_frame s s' (List.last l NULL).
Proof.
  destruct s as [[hd0 tl0] h]. intros (Hhd & Htl & Hch & Hnd).
  simpl in Hhd, Htl, Hch. subst.
  unfold dlist_dequeue. mrun.
  destruct (snoc_cases l) as [->|(l' & y & ->)].
  - eexists. split; [reflexivity|]. done.
  - rewrite dlast_snoc, removelast_snoc.
    pose proof Hch as Hch0. apply chain_snoc in Hch0 as (Hch' & Hy & Hlk).
    rewrite (eqb_ne y NULL) by done. mrun.
    rewrite (bind_load_prev _ _ _ _ _ (deref_chain_last _ _ _ _ _ Hch)). mrun.
    apply NoDup_app in Hnd as (Hnd' & Hdis & _).
    assert (Hyl : y ∉ l') by (intros Hin; apply (Hdis y Hin); left).
    destruct (snoc_cases l') as [->|(l'' & z & ->)].
    + simpl. rewrite Z.eqb_refl. mrun.
      eexists. split; [reflexivity|]. simpl.
      split; [|done]. split_and!; [done..|constructor].
    + rewrite (eqb_ne (hd NULL ((l'' ++ [z]) ++ [y])) y).
      2:{ rewrite hd_app_default. intros Heq. apply Hyl. rewrite <- Heq.
          rewrite hd_app_default. destruct l''; simpl; [left|left]. }
      mrun. rewrite dlast_snoc.
      rewrite (bind_store_next _ _ _ _ _ _ (deref_chain_last _ _ _ _ _ Hch')). mrun.
      eexists. split; [reflexivity|]. simpl.
      apply NoDup_app in Hnd' as (Hnd'' & Hdis' & _).
      assert (Hzl : z ∉ l'') by (intros Hin; apply (Hdis' z Hin); left).
      split_and!.
      * split_and!; simpl.
        -- by rewrite !hd_app_default.
        -- by rewrite dlast_snoc.
        -- by apply (chain_set_next _ _ _ _ y).
        -- apply NoDup_app. split_and!; [done|done|apply NoDup_singleton].
      * apply dom_insert_lookup_L. apply chain_snoc in Hch' as (_ & _ & ->). done.
      * split; cbn [mem].
        -- apply lookup_insert_ne. intros ->. apply Hyl. apply elem_of_app. right. left.
        -- intros n w Hn _ Hw. rewrite Hlk in Hn. injection Hn as <-.
           rewrite dlast_snoc in Hw. by apply lookup_insert_ne.
Qed.

Lemma enqueue_spec s l x :
  dll s l → valid_node (mem s) x → x ∉ l →
  ∃ s', dlist_enqueue x s = Ok (tt, s') ∧ dll s' (x :: l) ∧
        dom (mem s') = dom (mem s) ∧
        ∀ y, y ≠ x → y ≠ hd NULL l → mem s' !! y = mem s !! y.
Proof.
  destruct s as [[hd0 tl0] h]. intros (Hhd & Htl & Hch & Hnd) (Hx & [n0 Hn0]) Hxl.
  simpl in Hhd, Htl, Hch, Hn0. subst.
  unfold dlist_enqueue. 
  rewrite (bind_store_prev _ _ _ _ _ _ (deref_Some _ _ _ Hx Hn0)). mrun.
  rewrite (bind_store_next _ _ _ _ _ _ (deref_insert_eq _ _ _ Hx)). mrun.
  rewrite insert_insert_eq.
  destruct l as [|y l].
  - simpl. mrun. eexists. split; [reflexivity|]. simpl. split_and!.
    + split_and!; simpl; [done|done| |apply NoDup_singleton].
      split_and!; [done|apply lookup_insert_eq|done].
    + by apply dom_insert_lookup_L.
    + intros y Hy _. by apply lookup_insert_ne.
  - pose proof Hch as (Hy & Hlk & Hch'). cbn [hd].
    apply not_elem_of_cons in Hxl as [Hxy Hxl].
    apply NoDup_cons in Hnd as Hnd0. destruct Hnd0 as [Hyl Hnd'].
    rewrite (eqb_ne y NULL) by done. mrun.
    assert (Hdy : deref (<[x := mk_node y NULL]> h) y = Some (mk_node (hd NULL l) NULL)).
    { rewrite deref_insert_ne by done. by apply deref_Some. }
    rewrite (bind_load_prev _ _ _ _ _ Hdy). mrun.
    change (NULL =? NULL) with true. mrun.
    rewrite (bind_store_prev _ _ _ _ _ _ Hdy). mrun.
    eexists. split; [reflexivity|]. simpl. split_and!.
    + split_and!; simpl; [done|reflexivity| |].
      * split_and!; [done| |done| |].
        -- rewrite lookup_insert_ne by done. apply lookup_insert_eq.
        -- apply lookup_insert_eq.
        -- apply chain_insert_notin; [done|]. by apply chain_insert_notin.
      * apply NoDup_cons. split; [|done]. by apply not_elem_of_cons.
    + rewrite dom_insert_lookup_L.
      * by apply dom_insert_lookup_L.
      * rewrite lookup_insert_ne by done. by rewrite Hlk.
    + intros w Hwx Hwy. rewrite !lookup_insert_ne; done.
Qed.

Lemma pushback_spec s l x :
  dll s l → valid_node (mem s) x → x ∉ l →
  ∃ s', dlist_pushback x s = Ok (tt, s') ∧ dll s' (l ++ [x]) ∧
        dom (mem s') = dom (mem s) ∧
        ∀ y, y ≠ x → y ≠ List.last l NULL → mem s' !! y = mem s !! y.
Proof.
  destruct s as [[hd0 tl0] h]. intros (Hhd & Htl & Hch & Hnd) (Hx & [n0 Hn0]) Hxl.
  simpl in Hhd, Htl, Hch, Hn0. subst.
  unfold dlist_pushback.
  rewrite (bind_store_next _ _ _ _ _ _ (deref_Some _ _ _ Hx Hn0)). mrun.
  rewrite (bind_store_prev _ _ _ _ _ _ (deref_insert_eq _ _ _ Hx)). mrun.
  rewrite insert_insert_eq.
  destruct (snoc_cases l) as [->|(l' & y & ->)].
  - simpl. mrun. eexists. split; [reflexivity|]. simpl. split_and!.
    + split_and!; simpl; [done|done| |apply NoDup_singleton].
      split_and!; [done|apply lookup_insert_eq|done].
    + by apply dom_insert_lookup_L.
    + intros y Hy _. by apply lookup_insert_ne.
  - pose proof Hch as Hch0. apply chain_snoc in Hch0 as (Hch' & Hy & Hlk).
    rewrite dlast_snoc.
    apply not_elem_of_app in Hxl as [Hxl Hxy]. apply not_elem_of_cons in Hxy as [Hxy _].
    apply NoDup_app in Hnd as Hnd0. destruct Hnd0 as (Hnd' & Hdis & _).
    assert (Hyl : y ∉ l') by (intros Hin; apply (Hdis y Hin); left).
    rewrite (eqb_ne y NULL) by done. mrun.
    assert (Hdy : deref (<[x := mk_node NULL y]> h) y = Some (mk_node NULL (List.last l' NULL))).
    { rewrite deref_insert_ne by done. by apply deref_Some. }
    rewrite (bind_load_next _ _ _ _ _ Hdy). mrun.
    change (NULL =? NULL) with true. mrun.
    rewrite (bind_store_next _ _ _ _ _ _ Hdy). mrun.
    eexists. split; [reflexivity|]. simpl. split_and!.
    + split_and!; simpl.
      * by rewrite !hd_app_default.
      * by rewrite dlast_snoc.
      * apply chain_snoc. split_and!; [|done|].
        -- apply (chain_set_next _ _ _ _ NULL); [done|].
           apply chain_insert_notin; [|done].
           apply not_elem_of_app. split; [done|].
           apply not_elem_of_cons. split; [done|apply not_elem_of_nil].
        -- rewrite lookup_insert_ne by done. rewrite dlast_snoc. apply lookup_insert_eq.
      * apply NoDup_app. split_and!; [done| |apply NoDup_singleton].
        intros w Hw Hwx. apply list_elem_of_singleton in Hwx as ->.
        apply elem_of_app in Hw as [Hw|Hw]; [done|]. by apply list_elem_of_singleton in Hw.
    + rewrite dom_insert_lookup_L.
      * by apply dom_insert_lookup_L.
      * rewrite lookup_insert_ne by done. by rewrite Hlk.
    + intros w Hwx Hwy. rewrite !lookup_insert_ne; done.
Qed.

Ltac frame_tac Hlkx :=
  split; cbn [mem];
  [ rewrite ?lookup_insert_ne by done; done
  | let n := fresh "n" in let y := fresh "y" in
    let Hn := fresh "Hn" in let Hy1 := fresh "Hy1" in let Hy2 := fresh "Hy2" in
    intros n y Hn Hy1 Hy2; rewrite Hlkx in Hn; injection Hn as <-;
    cbn [next prev hd] in Hy1, Hy2; rewrite ?lookup_insert_ne by done; done ].

Lemma remove_spec s l x :
  dll s l → x ∈ l →
  ∃ s', dlist_remove x s = Ok (tt, s') ∧ dll s' (filter (λ y, y ≠ x) l) ∧
        dom (mem s') = dom (mem s) ∧
        removal_frame s s' x.
Proof.
  destruct s as [[hd0 tl0] h]. intros (Hhd & Htl & Hch & Hnd) Hin.
  simpl in Hhd, Htl, Hch. subst.
  apply list_elem_of_split in Hin as (l1 & l2 & ->).
  rewrite (filter_ne_middle _ _ _ Hnd).
  pose proof Hch as Hch0. apply chain_app in Hch0 as (Hch1 & Hchx).
  pose proof Hchx as (Hx & Hlkx & Hch2). cbn [hd] in Hch1.
  apply NoDup_app in Hnd as (Hnd1 & Hdis & Hnd2).
  apply NoDup_cons in Hnd2 as [Hx2 Hnd2].
  assert (Hx1 : x ∉ l1) by (intros Hin; apply (Hdis x Hin); left).
  assert (Hdis' : ∀ y, y ∈ l1 → y ∉ l2).
  { intros y Hy1 Hy2. apply (Hdis y Hy1). by right. }
  assert (Hdx : deref h x = Some (mk_node (hd NULL l2) (List.last l1 NULL))).
  { by apply deref_Some. }
  unfold dlist_remove.
  rewrite (bind_load_prev _ _ _ _ _ Hdx). mrun.
  destruct (snoc_cases l1) as [->|(l1' & z & ->)].
  - (* the node is the head *)
    change (List.last [] NULL) with NULL in *. cbn [app]. mrun.
    rewrite (bind_load_next _ _ _ _ _ Hdx). mrun.
    rewrite (bind_load_next _ _ _ _ _ Hdx). mrun.
    destruct l2 as [|w l2].
    + (* and the tail *)
      mrun. change (List.last [x] NULL) with x. mrun.
      rewrite (bind_load_prev _ _ _ _ _ Hdx).
      eexists. split; [reflexivity|]. simpl.
      split; [|done]. split_and!; [done..|constructor].
    + pose proof Hch2 as (Hw & Hlkw & Hch2'). cbn [hd].
      mrun. rewrite (eqb_ne w NULL) by done. mrun.
      rewrite (bind_load_prev _ _ _ _ _ Hdx). mrun.
      apply not_elem_of_cons in Hx2 as [Hxw Hx2].
      apply NoDup_cons in Hnd2 as Hnd2'. destruct Hnd2' as [Hw2 Hnd2'].
      rewrite (run_store_prev _ _ _ _ _ (deref_chain_hd _ _ _ _ _ Hch2)).
      eexists. split; [reflexivity|]. cbn [root mem head tail app].
      split_and!.
      * split_and!; [done|by rewrite dlast_cons_cons| |done].
        by apply (chain_set_prev _ x).
      * apply dom_insert_lookup_L. by rewrite Hlkw.
      * frame_tac Hlkx.
  - apply chain_snoc in Hch1 as Hch1'. destruct Hch1' as (Hch1' & Hz & Hlkz).
    rewrite dlast_snoc in *.
    apply not_elem_of_app in Hx1 as [Hx1 Hxz]. apply not_elem_of_cons in Hxz as [Hxz _].
    apply NoDup_app in Hnd1 as Hnd1'. destruct Hnd1' as (Hnd1' & Hdis1 & _).
    assert (Hz1 : z ∉ l1') by (intros Hin; apply (Hdis1 z Hin); left).
    rewrite (eqb_ne z NULL) by done. mrun.
    rewrite (bind_load_next _ _ _ _ _ Hdx). mrun.
    rewrite (bind_store_next _ _ _ _ _ _ (deref_chain_last _ _ _ _ _ Hch1)). mrun.
    assert (Hdx' : deref (<[z := mk_node (hd NULL l2) (List.last l1' NULL)]> h) x
                   = Some (mk_node (hd NULL l2) z)).
    { rewrite deref_insert_ne by done. done. }
    rewrite (bind_load_next _ _ _ _ _ Hdx'). mrun.
    assert (Hhd1 : ∀ l, hd NULL ((l1' ++ [z]) ++ l) = hd NULL (l1' ++ [z])).
    { intros l. rewrite !hd_app_default. by destruct l1'. }
    destruct l2 as [|w l2].
    + mrun. rewrite dlast_snoc. mrun.
      rewrite (bind_load_prev _ _ _ _ _ Hdx').
      eexists. split; [reflexivity|]. cbn [root mem head tail set_tail].
      rewrite app_nil_r. split_and!.
      * split_and!; cbn [root mem head tail]; [by rewrite Hhd1|by rewrite dlast_snoc| |done].
        by apply (chain_set_next _ _ _ _ x).
      * apply dom_insert_lookup_L. by rewrite Hlkz.
      * frame_tac Hlkx.
    + pose proof Hch2 as (Hw & Hlkw & Hch2'). cbn [hd] in *.
      mrun. rewrite (eqb_ne w NULL) by done. mrun.
      rewrite (bind_load_prev _ _ _ _ _ Hdx'). mrun.
      apply not_elem_of_cons in Hx2 as [Hxw Hx2].
      apply NoDup_cons in Hnd2 as Hnd2'. destruct Hnd2' as [Hw2 Hnd2'].
      assert (Hzw : z ≠ w).
      { intros ->. apply (Hdis' w); [|left]. apply elem_of_app. right. left. }
      assert (Hdw : deref (<[z := mk_node w (List.last l1' NULL)]> h) w
                    = Some (mk_node (hd NULL l2) x)).
      { rewrite deref_insert_ne by done. by apply deref_Some. }
      rewrite (run_store_prev _ _ _ _ _ Hdw).
      eexists. split; [reflexivity|]. cbn [root mem head tail next].
      split_and!.
      * split_and!; cbn [root mem head tail].
        -- by rewrite !Hhd1.
        -- by rewrite !dlast_app_cons, !dlast_cons_cons.
        -- apply chain_app. cbn [hd]. rewrite dlast_snoc. split.
           ++ apply chain_insert_notin.
              { intros Hin. apply (Hdis' w Hin). left. }
              by apply (chain_set_next _ _ _ _ x).
           ++ apply (chain_set_prev _ x); [done|].
              apply chain_insert_notin; [|done].
              intros Hin. apply (Hdis' z); [|done]. apply elem_of_app. right. left.
        -- apply NoDup_app. split_and!; [done|done|done].
      * rewrite dom_insert_lookup_L.
        -- apply dom_insert_lookup_L. by rewrite Hlkz.
        -- rewrite lookup_insert_ne by done. by rewrite Hlkw.
      * frame_tac Hlkx.
Qed.

(** ** Sequences of operations keep the invariant *)

Lemma init_spec s :
  ∃ s', dlist_init s = Ok (tt, s') ∧ dll s' [] ∧ mem s' = mem s.
Proof.
  destruct s as [[hd0 tl0] h]. unfold dlist_init. mrun.
  eexists. split; [reflexivity|]. split; [|done].
  split_and!; [done..|constructor].
Qed.

Lemma valid_node_dom h h' x :
  dom h' = dom h → valid_node h x → valid_node h' x.
Proof.
  intros Hdom [Hx Hs]. split; [done|].
  apply elem_of_dom. rewrite Hdom. by apply elem_of_dom.
Qed.

Lemma legal_from_dom h h' l ops :
  dom h' = dom h → legal_from h l ops → legal_from h' l ops.
Proof.
  intros Hdom. revert l. induction ops as [|o ops IH]; intros l; [done|].
  intros [Ho Hops]. split; [|by apply IH].
  destruct o; simpl in *; try done;
    by (destruct Ho; split; [eapply valid_node_dom|]).
Qed.

Lemma legal_from_take h l ops k :
  legal_from h l ops → legal_from h l (take k ops).
Proof.
  revert l k. induction ops as [|o ops IH]; intros l [|k]; try done.
  intros [Ho Hops]. split; [done|]. by apply IH.
Qed.

Lemma exec_spec s l o :
  dll s l → legal_op (mem s) l o →
  ∃ s', exec o s = Ok (tt, s') ∧ dll s' (apply_op o l) ∧
        dom (mem s') = dom (mem s).
Proof.
  intros Hdll Ho. destruct o as [x|x|x| | |x]; simpl in Ho; simpl exec; simpl apply_op.
  - destruct Ho as [Hv Hx].
    destruct (enqueue_spec s l x Hdll Hv Hx) as (s' & ? & ? & ? & _). eauto.
  - destruct Ho as [Hv Hx].
    destruct (pushback_spec s l x Hdll Hv Hx) as (s' & ? & ? & ? & _). eauto.
  - destruct Ho as [Hv Hx].
    destruct (enqueue_spec s l x Hdll Hv Hx) as (s' & ? & ? & ? & _). eauto.
  - destruct (pop_spec s l Hdll) as (s' & Hrun & ? & ? & _).
    exists s'. split; [|done]. unfold mbind, M_bind. by rewrite Hrun.
  - destruct (dequeue_spec s l Hdll) as (s' & Hrun & ? & ? & _).
    exists s'. split; [|done]. unfold mbind, M_bind. by rewrite Hrun.
  - destruct (remove_spec s l x Hdll Ho) as (s' & ? & ? & ? & _). eauto.
Qed.

Lemma exec_all_spec s l ops :
  dll s l → legal_from (mem s) l ops →
  ∃ s', exec_all ops s = Ok (tt, s') ∧ dll s' (contents_from l ops) ∧
        dom (mem s') = dom (mem s).
Proof.
  revert s l. induction ops as [|o ops IH]; intros s l Hdll Hlegal.
  - exists s. done.
  - destruct Hlegal as [Ho Hops].
    destruct (exec_spec s l o Hdll Ho) as (s1 & Hrun1 & Hdll1 & Hdom1).
    destruct (IH s1 (apply_op o l) Hdll1) as (s2 & Hrun2 & Hdll2 & Hdom2).
    { by apply (legal_from_dom (mem s)). }
    exists s2. split_and!; [|done|congruence].
    simpl. unfold mbind, M_bind. by rewrite Hrun1.
Qed.

Lemma run_spec s0 ops :
  legal (mem s0) ops →
  ∃ s, run ops s0 = Ok (tt, s) ∧ dll s (contents ops) ∧
       dom (mem s) = dom (mem s0).
Proof.
  intros Hlegal. destruct (init_spec s0) as (s1 & Hrun1 & Hdll1 & Hmem1).
  destruct (exec_all_spec s1 [] ops Hdll1) as (s2 & Hrun2 & Hdll2 & Hdom2).
  { by rewrite Hmem1. }
  exists s2. split_and!; [|done|congruence].
  unfold run, mbind, M_bind. by rewrite Hrun1.
Qed.

(** ** What the invariant says about the handle *)

Lemma dll_head_null s l : dll s l → head (root s) = NULL ↔ l = [].
Proof.
  intros (Hhd & _ & Hch & _). rewrite Hhd. destruct l as [|x l]; [done|].
  destruct Hch as (Hx & _). simpl. split; [done|discriminate].
Qed.

Lemma dll_tail_null s l : dll s l → tail (root s) = NULL ↔ l = [].
Proof.
  intros (_ & Htl & Hch & _). rewrite Htl. destruct l as [|x l]; [done|].
  split; [|discriminate]. intros Hnull.
  assert (Hin : List.last (x :: l) NULL ∈ x :: l) by by apply dlast_elem_of.
  destruct (chain_valid _ _ _ _ _ Hch Hin) as [Hne _]. done.
Qed.

(** ** [dlist_check] *)

Lemma check_loop_spec fuel h r prv l :
  chain h prv l NULL →
  tail r = List.last l prv →
  (prv ≠ NULL → ∃ n, deref h prv = Some n ∧ next n = hd NULL l) →
  (length l < fuel)%nat →
  dlist_check_loop fuel (hd NULL l) prv (mk_state r h) = Ok (tt, mk_state r h).
Proof.
  revert fuel prv. induction l as [|x l IH]; intros fuel prv Hch Htl Hprv Hfuel.
  - destruct fuel as [|fuel]; [simpl in Hfuel; lia|].
    simpl. mrun. rewrite Htl. change (List.last [] prv) with prv.
    unfold assert. by rewrite Z.eqb_refl.
  - destruct fuel as [|fuel]; [simpl in Hfuel; lia|].
    pose proof Hch as (Hx & Hlk & Hch').
    pose proof (deref_chain_hd _ _ _ _ _ Hch) as Hdx.
    cbn [dlist_check_loop hd]. rewrite (eqb_ne x NULL) by done.
    destruct (Z.eqb_spec prv NULL) as [->|Hne]; mrun.
    + rewrite (bind_load_prev _ _ _ _ _ Hdx). mrun.
      rewrite (bind_load_next _ _ _ _ _ Hdx). mrun.
      apply (IH fuel x); [done|by rewrite Htl, dlast_cons|eauto|simpl in Hfuel; lia].
    + destruct (Hprv Hne) as (n & Hdp & Hnx). cbn [hd] in Hnx.
      rewrite (bind_load_next _ _ _ _ _ Hdp). rewrite Hnx. mrun.
      rewrite (bind_load_prev _ _ _ _ _ Hdx). mrun.
      rewrite (bind_load_next _ _ _ _ _ Hdx). mrun.
      apply (IH fuel x); [done|by rewrite Htl, dlast_cons|eauto|simpl in Hfuel; lia].
Qed.

Lemma check_spec fuel s l :
  dll s l → (length l < fuel)%nat → dlist_check fuel s = Ok (tt, s).
Proof.
  destruct s as [r h]. intros (Hhd & Htl & Hch & _) Hfuel. simpl in *.
  unfold dlist_check. mrun. rewrite Hhd.
  by apply check_loop_spec.
Qed.

(** ** The folds *)

Section FoldFacts.
Variable off : Z.
Context {A E : Type}.
Implicit Types (f : @reducer A E) (rs : list ptr).

Lemma foldr_loop_spec f fuel h prv l a e :
  chain h prv l NULL → (length l < fuel)%nat →
  foldr_loop off fuel f h (hd NULL l) a e = Ok (reduce f (records off l) a e).
Proof.
  revert fuel prv a e.
  induction l as [|x l IH]; intros fuel prv a e Hch Hfuel;
    (destruct fuel as [|fuel]; [simpl in Hfuel; lia|]); [done|].
  pose proof Hch as (Hx & Hlk & Hch').
  cbn [foldr_loop hd records map reduce]. rewrite (eqb_ne x NULL) by done.
  destruct (f (GET_CONTAINER x off) a e) as [[a' t] e'].
  destruct t; [done|].
  rewrite (deref_chain_hd _ _ _ _ _ Hch). cbn [next].
  apply (IH fuel x); [done|simpl in Hfuel; lia].
Qed.

Lemma foldl_loop_spec f fuel h l nxt a e :
  chain h NULL l nxt → (length l < fuel)%nat →
  foldl_loop off fuel f h (List.last l NULL) a e
  = Ok (reduce f (records off (rev l)) a e).
Proof.
  revert fuel nxt a e.
  induction l as [|y l IH] using rev_ind; intros fuel nxt a e Hch Hfuel;
    (destruct fuel as [|fuel]; [simpl in Hfuel; lia|]); [done|].
  pose proof Hch as Hch0. apply chain_snoc in Hch0 as (Hch' & Hy & Hlk).
  rewrite dlast_snoc, rev_unit.
  cbn [foldl_loop records map reduce]. rewrite (eqb_ne y NULL) by done.
  destruct (f (GET_CONTAINER y off) a e) as [[a' t] e'].
  destruct t; [done|].
  rewrite (deref_chain_last _ _ _ _ _ Hch). cbn [prev].
  apply (IH fuel y); [done|]. rewrite length_app in Hfuel. simpl in Hfuel. lia.
Qed.

Lemma foldr_spec f fuel s l a e :
  dll s l → (length l < fuel)%nat →
  dlist_T_foldr off fuel f a s e = Ok (reduce f (records off l) a e).
Proof.
  intros (Hhd & _ & Hch & _) Hfuel. unfold dlist_T_foldr. rewrite Hhd.
  by apply (foldr_loop_spec _ _ _ NULL).
Qed.

Lemma foldl_spec f fuel s l a e :
  dll s l → (length l < fuel)%nat →
  dlist_T_foldl off fuel f a s e = Ok (reduce f (records off (rev l)) a e).
Proof.
  intros (_ & Htl & Hch & _) Hfuel. unfold dlist_T_foldl. rewrite Htl.
  by apply (foldl_loop_spec _ _ _ _ NULL).
Qed.

(** Tracing does not change what the reducer computes. *)
Lemma reduce_traced_erase f rs a e tr :
  let '(a', (e', _)) := reduce (traced f) rs a (e, tr) in
  reduce f rs a e = (a', e').
Proof.
  revert a e tr. induction rs as [|r rs IH]; intros a e tr; [done|].
  cbn [reduce]. unfold traced at 1. cbn [fst snd].
  destruct (f r a e) as [[a' t] e']. destruct t; [done|]. apply IH.
Qed.

Lemma reduce_traced_quiet_app f pre rest a e tr a1 e1 :
  quiet f pre a e = Some (a1, e1) →
  reduce (traced f) (pre ++ rest) a (e, tr)
  = reduce (traced f) rest a1 (e1, tr ++ pre).
Proof.
  revert a e tr. induction pre as [|r pre IH]; intros a e tr Hq.
  - injection Hq as <- <-. by rewrite app_nil_r.
  - cbn [quiet] in Hq. cbn [app reduce]. unfold traced at 1. cbn [fst snd].
    destruct (f r a e) as [[a' t] e']. destruct t; [done|].
    rewrite (IH _ _ _ Hq). by rewrite <- app_assoc.
Qed.

Lemma reduce_traced_quiet f rs a e tr a1 e1 :
  quiet f rs a e = Some (a1, e1) →
  reduce (traced f) rs a (e, tr) = (a1, (e1, tr ++ rs)).
Proof.
  intros Hq. rewrite <- (app_nil_r rs) at 1.
  by rewrite (reduce_traced_quiet_app _ _ _ _ _ _ _ _ Hq).
Qed.

Lemma reduce_traced_fires f rs a e tr k a' e' :
  fires_at f rs a e k a' e' →
  reduce (traced f) rs a (e, tr) = (a', (e', tr ++ take k rs)) ∧
  length (take k rs) = k.
Proof.
  intros (j & r & a1 & e1 & -> & Hq & Hr & Hf).
  split.
  - rewrite <- (take_drop_middle rs j r Hr) at 1.
    rewrite (reduce_traced_quiet_app _ _ _ _ _ _ _ _ Hq).
    cbn [reduce]. unfold traced at 1. cbn [fst snd]. rewrite Hf.
    rewrite (take_S_r _ _ _ Hr). by rewrite app_assoc.
  - apply length_take_le. apply lookup_lt_Some in Hr. lia.
Qed.

(** A reducer that never sets the signal runs quietly over any list. *)
Lemma quiet_never f rs a e :
  (∀ r a e, (f r a e).1.2 = false) → quiet f rs a e = Some (reduce f rs a e).
Proof.
  intros Hnever. revert a e. induction rs as [|r rs IH]; intros a e; [done|].
  cbn [quiet reduce]. specialize (Hnever r a e).
  destruct (f r a e) as [[a' t] e']. simpl in Hnever. subst t. apply IH.
Qed.

Lemma records_inj l : NoDup l → NoDup (records off l).
Proof.
  intros Hnd. apply NoDup_fmap_2; [|done].
  intros p q Hpq. unfold GET_CONTAINER in Hpq. lia.
Qed.
End FoldFacts.

(** ** Loops of insertions and removals *)

Lemma bind_ok {A B} (m : M A) (k : A → M B) s a s' :
  m s = Ok (a, s') → (m ≫= k) s = k a s'.
Proof. intros H. unfold mbind, M_bind. by rewrite H. Qed.

Section Loops.
Variable off : Z.

Lemma container_field r : GET_CONTAINER (field_addr r off) off = r.
Proof. unfold GET_CONTAINER, field_addr. lia. Qed.

Lemma records_links recs : records off (links off recs) = recs.
Proof.
  unfold records, links. rewrite map_map.
  rewrite (map_ext _ id); [apply map_id|]. intros r. apply container_field.
Qed.

Lemma links_elem_of r recs : field_addr r off ∈ links off recs → r ∈ recs.
Proof.
  unfold links. intros Hin. apply list_elem_of_In, in_map_iff in Hin.
  destruct Hin as (r' & Heq & Hin). apply list_elem_of_In.
  unfold field_addr in Heq. by replace r with r' by lia.
Qed.

Lemma insert_all_pushback_spec recs s l :
  dll s l → insertable off (mem s) l recs →
  ∃ s', insert_all (dlist_T_pushback off) recs s = Ok (tt, s') ∧
        dll s' (l ++ links off recs) ∧ dom (mem s') = dom (mem s).
Proof.
  revert s l. induction recs as [|r recs IH]; intros s l Hdll [Hnd Hall].
  - exists s. rewrite app_nil_r. done.
  - apply NoDup_cons in Hnd as [Hr Hnd].
    apply Forall_cons in Hall as [[Hv Hrl] Hall].
    destruct (pushback_spec s l _ Hdll Hv Hrl) as (s1 & Hrun1 & Hdll1 & Hdom1 & _).
    destruct (IH s1 _ Hdll1) as (s2 & Hrun2 & Hdll2 & Hdom2).
    { split; [done|]. eapply Forall_impl; [apply Forall_and; split; [exact Hall|]|].
      - apply Forall_forall. intros r' Hr'. exact Hr'.
      - intros r' [[Hv' Hl'] Hin]. split; [by eapply valid_node_dom|].
        apply not_elem_of_app. split; [done|].
        apply not_elem_of_cons. split; [|apply not_elem_of_nil].
        intros Heq. unfold field_addr in Heq.
        apply Hr. by replace r with r' by lia. }
    exists s2. split_and!; [|by rewrite <- app_assoc in Hdll2|congruence].
    cbn [insert_all]. unfold dlist_T_pushback at 1. by rewrite (bind_ok _ _ _ _ _ Hrun1).
Qed.

Lemma insert_all_enqueue_spec recs s l :
  dll s l → insertable off (mem s) l recs →
  ∃ s', insert_all (dlist_T_enqueue off) recs s = Ok (tt, s') ∧
        dll s' (rev (links off recs) ++ l) ∧ dom (mem s') = dom (mem s).
Proof.
  revert s l. induction recs as [|r recs IH]; intros s l Hdll [Hnd Hall].
  - exists s. done.
  - apply NoDup_cons in Hnd as [Hr Hnd].
    apply Forall_cons in Hall as [[Hv Hrl] Hall].
    destruct (enqueue_spec s l _ Hdll Hv Hrl) as (s1 & Hrun1 & Hdll1 & Hdom1 & _).
    destruct (IH s1 _ Hdll1) as (s2 & Hrun2 & Hdll2 & Hdom2).
    { split; [done|]. eapply Forall_impl; [apply Forall_and; split; [exact Hall|]|].
      - apply Forall_forall. intros r' Hr'. exact Hr'.
      - intros r' [[Hv' Hl'] Hin]. split; [by eapply valid_node_dom|].
        apply not_elem_of_cons. split; [|done].
        intros Heq. unfold field_addr in Heq.
        apply Hr. by replace r with r' by lia. }
    exists s2. split_and!; [| |congruence].
    + cbn [insert_all]. unfold dlist_T_enqueue at 1. by rewrite (bind_ok _ _ _ _ _ Hrun1).
    + cbn [links map rev]. rewrite <- app_assoc. exact Hdll2.
Qed.

Lemma T_pop_run s x s' :
  dlist_pop s = Ok (x, s') → dlist_T_pop off s = Ok (GET_CONTAINER x off, s').
Proof. intros H. unfold dlist_T_pop. by rewrite (bind_ok _ _ _ _ _ H). Qed.

Lemma T_dequeue_run s x s' :
  dlist_dequeue s = Ok (x, s') →
  dlist_T_dequeue off s = Ok (GET_CONTAINER x off, s').
Proof. intros H. unfold dlist_T_dequeue. by rewrite (bind_ok _ _ _ _ _ H). Qed.

Lemma remove_n_pop_spec s l :
  dll s l →
  ∃ s', remove_n (dlist_T_pop off) (length l) s = Ok (records off l, s') ∧
        dll s' [] ∧ dom (mem s') = dom (mem s).
Proof.
  revert s. induction l as [|x l IH]; intros s Hdll.
  - exists s. done.
  - destruct (pop_spec s _ Hdll) as (s1 & Hrun1 & Hdll1 & Hdom1 & _).
    destruct (IH s1 Hdll1) as (s2 & Hrun2 & Hdll2 & Hdom2).
    exists s2. split_and!; [|done|congruence].
    cbn [length remove_n].
    rewrite (bind_ok _ _ _ _ _ (T_pop_run _ _ _ Hrun1)).
    by rewrite (bind_ok _ _ _ _ _ Hrun2).
Qed.

Lemma remove_n_dequeue_spec s l :
  dll s l →
  ∃ s', remove_n (dlist_T_dequeue off) (length l) s
        = Ok (records off (rev l), s') ∧
        dll s' [] ∧ dom (mem s') = dom (mem s).
Proof.
  revert s. induction l as [|y l IH] using rev_ind; intros s Hdll.
  - exists s. done.
  - destruct (dequeue_spec s _ Hdll) as (s1 & Hrun1 & Hdll1 & Hdom1 & _).
    rewrite dlast_snoc in Hrun1. rewrite removelast_snoc in Hdll1.
    destruct (IH s1 Hdll1) as (s2 & Hrun2 & Hdll2 & Hdom2).
    exists s2. split_and!; [|done|congruence].
    rewrite length_app, Nat.add_1_r, rev_unit. cbn [remove_n].
    rewrite (bind_ok _ _ _ _ _ (T_dequeue_run _ _ _ Hrun1)).
    by rewrite (bind_ok _ _ _ _ _ Hrun2).
Qed.

Lemma roundtrip_spec ins rem recs s0 order out :
  NoDup recs →
  Forall (λ r, valid_node (mem s0) (field_addr r off)) recs →
  (∀ s, dll s [] → insertable off (mem s) [] recs →
     ∃ s', insert_all ins recs s = Ok (tt, s') ∧
           dll s' (order (links off recs)) ∧ dom (mem s') = dom (mem s)) →
  (∀ s l, dll s l →
     ∃ s', remove_n rem (length l) s = Ok (out l, s') ∧ dll s' [] ∧
           dom (mem s') = dom (mem s)) →
  length (order (links off recs)) = length recs →
  ∃ s, roundtrip ins rem recs s0 = Ok (out (order (links off recs)), s) ∧ dll s [].
Proof.
  intros Hnd Hall Hins Hrem Hlen.
  destruct (init_spec s0) as (s1 & Hrun1 & Hdll1 & Hmem1).
  destruct (Hins s1 Hdll1) as (s2 & Hrun2 & Hdll2 & Hdom2).
  { split; [done|]. rewrite Hmem1. eapply Forall_impl; [exact Hall|].
    intros r Hv. split; [done|apply not_elem_of_nil]. }
  destruct (Hrem s2 _ Hdll2) as (s3 & Hrun3 & Hdll3 & Hdom3).
  exists s3. split; [|done]. unfold roundtrip.
  rewrite (bind_ok _ _ _ _ _ Hrun1), (bind_ok _ _ _ _ _ Hrun2).
  by rewrite <- Hlen.
Qed.
End Loops.

(** ** Concrete inputs *)

Ltac by_computation := apply (bool_decide_unpack _); vm_compute; exact I.

Ltac solve_valid :=
  repeat first
    [ exact I
    | apply Forall_nil
    | apply Forall_cons; split
    | split; [by vm_compute | vm_compute; eauto] ].

(** ** Round trips *)

(** C1 (as amended).  For distinct records whose nodes are alive, starting
    from an initialised empty list: as many [dequeue] as there were
    [pushback] return the records in reverse insertion order (LIFO), and
    so do as many [pop] as there were [enqueue]; insertion order (FIFO)
    is what [pushback] then [pop], and [enqueue] then [dequeue], give. *)
Theorem roundtrip_orders off s0 recs :
  NoDup recs →
  Forall (λ r, valid_node (mem s0) (field_addr r off)) recs →
  (∃ s, roundtrip (dlist_T_pushback off) (dlist_T_dequeue off) recs s0
        = Ok (rev recs, s)) ∧
  (∃ s, roundtrip (dlist_T_enqueue off) (dlist_T_pop off) recs s0
        = Ok (rev recs, s)) ∧
  (∃ s, roundtrip (dlist_T_pushback off) (dlist_T_pop off) recs s0
        = Ok (recs, s)) ∧
  (∃ s, roundtrip (dlist_T_enqueue off) (dlist_T_dequeue off) recs s0
        = Ok (recs, s)).
Proof.
  intros Hnd Hall.
  assert (Hpb : ∀ s, dll s [] → insertable off (mem s) [] recs →
     ∃ s', insert_all (dlist_T_pushback off) recs s = Ok (tt, s') ∧
           dll s' (id (links off recs)) ∧ dom (mem s') = dom (mem s)).
  { intros s Hdll Hins. by apply (insert_all_pushback_spec off recs s []). }
  assert (Henq : ∀ s, dll s [] → insertable off (mem s) [] recs →
     ∃ s', insert_all (dlist_T_enqueue off) recs s = Ok (tt, s') ∧
           dll s' (rev (links off recs)) ∧ dom (mem s') = dom (mem s)).
  { intros s Hdll Hins.
    destruct (insert_all_enqueue_spec off recs s [] Hdll Hins) as (s' & ? & Hd & ?).
    rewrite app_nil_r in Hd. eauto. }
  assert (Hlen : length (rev (links off recs)) = length recs).
  { unfold links. by rewrite length_rev, length_map. }
  assert (Hlen' : length (id (links off recs)) = length recs).
  { unfold links. apply length_map. }
  assert (Hrev : records off (rev (links off recs)) = rev recs).
  { unfold records. rewrite map_rev. f_equal. apply (records_links off). }
  split_and!.
  - destruct (roundtrip_spec off _ _ recs s0 id (λ l, records off (rev l))
                Hnd Hall Hpb (remove_n_dequeue_spec off) Hlen') as (s & Hrun & _).
    exists s. by rewrite Hrun, <- Hrev.
  - destruct (roundtrip_spec off _ _ recs s0 (@rev ptr) (records off)
                Hnd Hall Henq (remove_n_pop_spec off) Hlen) as (s & Hrun & _).
    exists s. by rewrite Hrun, Hrev.
  - destruct (roundtrip_spec off _ _ recs s0 id (records off)
                Hnd Hall Hpb (remove_n_pop_spec off) Hlen') as (s & Hrun & _).
    exists s. rewrite Hrun. unfold id. by rewrite records_links.
  - destruct (roundtrip_spec off _ _ recs s0 (@rev ptr) (λ l, records off (rev l))
                Hnd Hall Henq (remove_n_dequeue_spec off) Hlen) as (s & Hrun & _).
    exists s. rewrite Hrun. by rewrite rev_involutive, records_links.
Qed.

Lemma roundtrip_orders_witness :
  (∃ s, roundtrip (dlist_T_pushback 0) (dlist_T_dequeue 0) [16; 32; 48]
          (sample_state 3) = Ok ([48; 32; 16], s)) ∧
  (∃ s, roundtrip (dlist_T_enqueue 0) (dlist_T_pop 0) [16; 32; 48]
          (sample_state 3) = Ok ([48; 32; 16], s)) ∧
  (∃ s, roundtrip (dlist_T_pushback 0) (dlist_T_pop 0) [16; 32; 48]
          (sample_state 3) = Ok ([16; 32; 48], s)) ∧
  (∃ s, roundtrip (dlist_T_enqueue 0) (dlist_T_dequeue 0) [16; 32; 48]
          (sample_state 3) = Ok ([16; 32; 48], s)).
Proof.
  apply (roundtrip_orders 0 (sample_state 3) [16; 32; 48]).
  - by_computation.
  - solve_valid.
Defined.

(** C1, as the specification states it, fails: two records pushed back
    and dequeued come out last one first. *)
Lemma pushback_dequeue_not_fifo :
  NoDup [16; 32] ∧
  Forall (λ r, valid_node (mem (sample_state 2)) (field_addr r 0)) [16; 32] ∧
  ∃ out s, roundtrip (dlist_T_pushback 0) (dlist_T_dequeue 0) [16; 32]
             (sample_state 2) = Ok (out, s) ∧ out = [32; 16] ∧ out ≠ [16; 32].
Proof.
  split_and!.
  - by_computation.
  - solve_valid.
  - eexists _, _. split_and!; [vm_compute; reflexivity|reflexivity|discriminate].
Qed.

(** ** The empty list *)

(** On the empty list the engine answers every removal and every peek
    with the null pointer, and leaves the state alone. *)
Lemma engine_empty_results s :
  dll s [] →
  dlist_pop s = Ok (NULL, s) ∧ dlist_dequeue s = Ok (NULL, s) ∧
  dlist_head s = Ok (NULL, s) ∧ dlist_tail s = Ok (NULL, s).
Proof.
  destruct s as [[hd0 tl0] h]. intros (Hhd & Htl & _). simpl in Hhd, Htl. subst.
  done.
Qed.

(** The typed operations hand that null pointer to [GET_CONTAINER]; what
    comes back is null exactly when the link node is the first field of
    the record. *)
Lemma typed_empty_results off s :
  dll s [] →
  dlist_T_pop off s = Ok (GET_CONTAINER NULL off, s) ∧
  dlist_T_dequeue off s = Ok (GET_CONTAINER NULL off, s) ∧
  dlist_T_head off s = Ok (GET_CONTAINER NULL off, s) ∧
  dlist_T_tail off s = Ok (GET_CONTAINER NULL off, s) ∧
  (GET_CONTAINER NULL off = NULL ↔ off = 0).
Proof.
  intros Hdll. destruct (engine_empty_results s Hdll) as (Hpop & Hdeq & Hhd & Htl).
  unfold dlist_T_pop, dlist_T_dequeue, dlist_T_head, dlist_T_tail.
  rewrite (bind_ok _ _ _ _ _ Hpop), (bind_ok _ _ _ _ _ Hdeq),
    (bind_ok _ _ _ _ _ Hhd), (bind_ok _ _ _ _ _ Htl).
  split_and!; try done. unfold GET_CONTAINER, NULL. lia.
Qed.

(** C2.  The claim does not hold of the code.  For a record whose link
    node lies 8 bytes into it, the typed [pop], [dequeue], [head] and
    [tail] on a list that was just initialised return the address 8 bytes
    before null, which is not the null pointer. *)
Theorem typed_empty_not_absent :
  ∃ s,
    dlist_T_init (sample_state 0) = Ok (tt, s) ∧
    dlist_T_pop 8 s = Ok (-8, s) ∧
    dlist_T_dequeue 8 s = Ok (-8, s) ∧
    dlist_T_head 8 s = Ok (-8, s) ∧
    dlist_T_tail 8 s = Ok (-8, s) ∧
    -8 ≠ NULL.
Proof. eexists. split_and!; [reflexivity..|done]. Qed.

(** ** [dlist_destroy] *)

Lemma destroy_nonempty s :
  head (root s) ≠ NULL ∨ tail (root s) ≠ NULL →
  ∃ msg, dlist_destroy s = Panic msg.
Proof.
  destruct s as [[hd0 tl0] h]. cbn [root head tail]. intros Hne.
  unfold dlist_destroy. mrun.
  destruct (Z.eqb_spec hd0 NULL) as [->|Hhd].
  - destruct Hne as [Hne|Hne]; [done|]. mrun.
    rewrite (eqb_ne tl0 NULL) by done. by eexists.
  - by eexists.
Qed.

Lemma destroy_empty s :
  head (root s) = NULL → tail (root s) = NULL →
  dlist_destroy s = Ok (tt, mk_state (mk_root POISON POISON) (mem s)).
Proof.
  destruct s as [[hd0 tl0] h]. cbn [root head tail mem]. by intros -> ->.
Qed.






Ltac solve_dll :=
  split_and!; try reflexivity; try (by vm_compute); by_computation.





(** C5 (as amended).  On a list [l] and a live node [x] that is not
    linked in it,
    [dlist_enqueue] makes [x] the head, and the tail too if the list was
    empty; [dlist_pushback] makes [x] the tail, and the head too if the
    list was empty.  The list afterwards is [l] with [x] in front,
    respectively at the back: the other nodes are there in the order
    they had, and only the old head, respectively the old tail, has had a
    link changed. *)
Theorem insert_spec s l x :
  dll s l → valid_node (mem s) x → x ∉ l →
  (∃ s', dlist_enqueue x s = Ok (tt, s') ∧
         head (root s') = x ∧ (l = [] → tail (root s') = x) ∧
         (l ≠ [] → tail (root s') = tail (root s)) ∧
         dll s' (x :: l) ∧
         ∀ y, y ≠ x → y ≠ head (root s) → mem s' !! y = mem s !! y) ∧
  (∃ s', dlist_pushback x s = Ok (tt, s') ∧
         tail (root s') = x ∧ (l = [] → head (root s') = x) ∧
         (l ≠ [] → head (root s') = head (root s)) ∧
         dll s' (l ++ [x]) ∧
         ∀ y, y ≠ x → y ≠ tail (root s) → mem s' !! y = mem s !! y).
Proof.
  intros Hdll Hv Hx. pose proof Hdll as (Hhd & Htl & _). split.
  - destruct (enqueue_spec s l x Hdll Hv Hx) as (s' & Hrun & Hdll' & _ & Hfr).
    pose proof Hdll' as (Hhd' & Htl' & _).
    exists s'. split_and!; [done|done| | |done|by rewrite Hhd].
    + intros ->. done.
    + intros Hl. rewrite Htl', Htl. destruct l; [done|]. apply dlast_cons_cons.
  - destruct (pushback_spec s l x Hdll Hv Hx) as (s' & Hrun & Hdll' & _ & Hfr).
    pose proof Hdll' as (Hhd' & Htl' & _).
    exists s'. split_and!; [done| | | |done|by rewrite Htl].
    + by rewrite Htl', dlast_snoc.
    + intros ->. done.
    + intros Hl. rewrite Hhd', Hhd. by destruct l.
Qed.

Lemma insert_spec_witness :
  (∃ s', dlist_enqueue 64 (mk_state (root linked3) (<[64 := mk_node 170 85]> (mem linked3)))
         = Ok (tt, s') ∧ dll s' [64; 16; 32; 48]) ∧
  (∃ s', dlist_pushback 64 (mk_state (root linked3) (<[64 := mk_node 170 85]> (mem linked3)))
         = Ok (tt, s') ∧ dll s' [16; 32; 48; 64]).
Proof.
  destruct (insert_spec
              (mk_state (root linked3) (<[64 := mk_node 170 85]> (mem linked3)))
              [16; 32; 48] 64) as [(s1 & H1 & _ & _ & _ & D1 & _) (s2 & H2 & _ & _ & _ & D2 & _)].
  - solve_dll.
  - split; [by vm_compute|vm_compute; eauto].
  - by_computation.
  - split; eauto.
Defined.

(** C5, as the specification states it, fails: it takes any node, and a
    node that is already linked in the list is not inserted in front of
    the others.  [dlist_enqueue] of the middle node of a list of three
    returns, and leaves the node and the old head pointing at each other
    by [next], the last node out of reach from the head, and a state that
    holds no list at all. *)
Lemma enqueue_linked_node_breaks_list :
  dll linked3 [16; 32; 48] ∧ valid_node (mem linked3) 32 ∧
  ∃ s, dlist_enqueue 32 linked3 = Ok (tt, s) ∧
       head (root s) = 32 ∧
       mem s !! 32 = Some (mk_node 16 NULL) ∧
       mem s !! 16 = Some (mk_node 32 32) ∧
       ¬ dll s [32; 16; 32; 48] ∧
       ∀ l, ¬ dll s l.
Proof.
  split_and!; [solve_dll|split; [by vm_compute|vm_compute; eauto]|].
  eexists. split_and!; [vm_compute; reflexivity|reflexivity..| |].
  - intros (_ & _ & _ & Hnd). apply NoDup_cons in Hnd as [Hin _].
    apply Hin. right. left.
  - intros l Hdll.
    pose proof (check_spec (S (S (S (length l)))) _ l Hdll) as Hchk.
    assert (Hlt : (length l < S (S (S (length l))))%nat) by lia.
    specialize (Hchk Hlt). vm_compute in Hchk. discriminate Hchk.
Qed.

(** C10.  On a list [l], the three removals take their node out and leave
    its own two links as they were: [mem s' !! x = mem s !! x], and no node
    other than the two that [x] points at is written.  So after [pop] on a
    list of two nodes or more, the node returned still points at the new
    head. *)
Theorem removal_keeps_links s l :
  dll s l →
  (∃ s', dlist_pop s = Ok (hd NULL l, s') ∧ dll s' (List.tl l) ∧
         removal_frame s s' (hd NULL l)) ∧
  (∃ s', dlist_dequeue s = Ok (List.last l NULL, s') ∧ dll s' (removelast l) ∧
         removal_frame s s' (List.last l NULL)) ∧
  (∀ x, x ∈ l →
     ∃ s', dlist_remove x s = Ok (tt, s') ∧ dll s' (filter (λ y, y ≠ x) l) ∧
           removal_frame s s' x) ∧
  (∀ x y l', l = x :: y :: l' →
     ∃ s' n, dlist_pop s = Ok (x, s') ∧ mem s' !! x = Some n ∧ next n = y ∧
             y ∈ y :: l' ∧ dll s' (y :: l')).
Proof.
  intros Hdll. split_and!.
  - destruct (pop_spec s l Hdll) as (s' & ? & ? & _ & ?). eauto.
  - destruct (dequeue_spec s l Hdll) as (s' & ? & ? & _ & ?). eauto.
  - intros x Hx. destruct (remove_spec s l x Hdll Hx) as (s' & ? & ? & _ & ?). eauto.
  - intros x y l' ->. destruct (pop_spec s _ Hdll) as (s' & Hrun & Hdll' & _ & [Hfr _]).
    destruct Hdll as (_ & _ & (_ & Hlk & _) & _).
    exists s', (mk_node y NULL). split_and!; [done| |done|left|done].
    cbn [hd] in Hfr. by rewrite Hfr.
Qed.

Lemma removal_keeps_links_witness :
  ∃ s', dlist_pop linked3 = Ok (16, s') ∧ dll s' [32; 48] ∧
        mem s' !! 16 = Some (mk_node 32 NULL).
Proof.
  destruct (removal_keeps_links linked3 [16; 32; 48])
    as ((s' & Hrun & Hdll & [Hfr _]) & _); [solve_dll|].
  exists s'. split_and!; [done|done|exact Hfr].
Defined.

(** ** Reachable lists *)

(** C4 (as amended).  After [dlist_init] and any number of [enqueue],
    [pushback], [push], [pop], [dequeue] and [remove], where every node
    inserted is alive and not linked in the list at that time and every
    node removed is linked in it, the handle's head is absent if and only
    if its tail is, and they are absent exactly when the list holds no
    node.  This holds after every operation of the sequence, that is for
    each of its prefixes. *)
Theorem handle_all_or_nothing s0 ops k :
  legal (mem s0) ops →
  ∃ s, run (take k ops) s0 = Ok (tt, s) ∧
       (head (root s) = NULL ↔ tail (root s) = NULL) ∧
       (head (root s) = NULL ↔ contents (take k ops) = []) ∧
       (tail (root s) = NULL ↔ contents (take k ops) = []).
Proof.
  intros Hlegal.
  destruct (run_spec s0 (take k ops)) as (s & Hrun & Hdll & _).
  { by apply legal_from_take. }
  exists s. pose proof (dll_head_null s _ Hdll). pose proof (dll_tail_null s _ Hdll).
  split_and!; [done|tauto|tauto|tauto].
Qed.

Lemma handle_all_or_nothing_witness :
  ∃ s, run (take 5 [OpEnqueue 16; OpPushback 32; OpPush 48; OpPop;
                    OpRemove 16; OpDequeue; OpPop]) (sample_state 3)
       = Ok (tt, s) ∧
       (head (root s) = NULL ↔ tail (root s) = NULL).
Proof.
  destruct (handle_all_or_nothing (sample_state 3)
              [OpEnqueue 16; OpPushback 32; OpPush 48; OpPop;
               OpRemove 16; OpDequeue; OpPop] 5)
    as (s & Hrun & Hiff & _).
  - by_computation.
  - exists s. split; assumption.
Defined.

(** C4, as the specification states it, fails: nothing says that a node
    is inserted once only, and a node enqueued twice and popped once
    leaves a handle with a head and no tail. *)
Lemma double_enqueue_breaks_handle :
  ∃ s, run [OpEnqueue 16; OpEnqueue 16; OpPop] (sample_state 1) = Ok (tt, s) ∧
       head (root s) = 16 ∧ tail (root s) = NULL ∧
       ¬ (head (root s) = NULL ↔ tail (root s) = NULL).
Proof.
  eexists. split_and!; [vm_compute; reflexivity|reflexivity..|].
  cbn [root head tail]. intros [_ H]. by specialize (H eq_refl).
Qed.

(** ** [dlist_check] on reachable lists *)

Lemma chain_adjacent h prv l nxt i x y :
  chain h prv l nxt → l !! i = Some x → l !! S i = Some y →
  ∃ nx ny, h !! x = Some nx ∧ next nx = y ∧ h !! y = Some ny ∧ prev ny = x.
Proof.
  revert prv i. induction l as [|a l IH]; intros prv i Hch Hx Hy; [done|].
  destruct Hch as (Ha & Hlk & Hch). destruct i as [|i].
  - injection Hx as ->. destruct l as [|b l]; [done|]. injection Hy as ->.
    destruct Hch as (_ & Hlky & _).
    eexists _, _. split_and!; [exact Hlk|done|exact Hlky|done].
  - by apply (IH a i).
Qed.

Lemma check_loop_short fuel h r prv l :
  chain h prv l NULL →
  (prv ≠ NULL → ∃ n, deref h prv = Some n ∧ next n = hd NULL l) →
  (fuel ≤ length l)%nat →
  dlist_check_loop fuel (hd NULL l) prv (mk_state r h) = OutOfFuel.
Proof.
  revert fuel prv. induction l as [|x l IH]; intros fuel prv Hch Hprv Hfuel.
  - destruct fuel as [|fuel]; [done|simpl in Hfuel; lia].
  - destruct fuel as [|fuel]; [done|].
    pose proof Hch as (Hx & Hlk & Hch').
    pose proof (deref_chain_hd _ _ _ _ _ Hch) as Hdx.
    cbn [dlist_check_loop hd]. rewrite (eqb_ne x NULL) by done.
    destruct (Z.eqb_spec prv NULL) as [->|Hne]; mrun.
    + rewrite (bind_load_prev _ _ _ _ _ Hdx). mrun.
      rewrite (bind_load_next _ _ _ _ _ Hdx). mrun.
      apply (IH fuel x); [done|eauto|simpl in Hfuel; lia].
    + destruct (Hprv Hne) as (n & Hdp & Hnx). cbn [hd] in Hnx.
      rewrite (bind_load_next _ _ _ _ _ Hdp). rewrite Hnx. mrun.
      rewrite (bind_load_prev _ _ _ _ _ Hdx). mrun.
      rewrite (bind_load_next _ _ _ _ _ Hdx). mrun.
      apply (IH fuel x); [done|eauto|simpl in Hfuel; lia].
Qed.

Lemma check_short fuel s l :
  dll s l → (fuel ≤ length l)%nat → dlist_check fuel s = OutOfFuel.
Proof.
  destruct s as [r h]. intros (Hhd & Htl & Hch & _) Hfuel. simpl in *.
  unfold dlist_check. mrun. rewrite Hhd.
  by apply check_loop_short.
Qed.

(** C9 (as amended).  On a list that [dlist_init] and any number of
    [enqueue], [pushback], [push], [pop], [dequeue] and [remove] have
    produced, where every node inserted is alive and not linked in the
    list at that time and every node removed is linked in it,
    [dlist_check] fails no assertion: it
    returns as soon as it has one iteration more than the list has nodes,
    and with less it has not come to the end yet.  On such a list the
    head is the first node and the tail the last (both absent on the
    empty list), the first node's [prev] is absent, and for two nodes
    that follow one another [next] of the first is the second and [prev]
    of the second is the first. *)
Theorem check_never_aborts s0 ops :
  legal (mem s0) ops →
  ∃ s, run ops s0 = Ok (tt, s) ∧
       (∀ fuel, (length (contents ops) < fuel)%nat → dlist_check fuel s = Ok (tt, s)) ∧
       (∀ fuel, (fuel ≤ length (contents ops))%nat → dlist_check fuel s = OutOfFuel) ∧
       head (root s) = hd NULL (contents ops) ∧
       tail (root s) = List.last (contents ops) NULL ∧
       (∀ x n, contents ops !! 0%nat = Some x → mem s !! x = Some n → prev n = NULL) ∧
       (∀ i x y, contents ops !! i = Some x → contents ops !! S i = Some y →
          ∃ nx ny, mem s !! x = Some nx ∧ next nx = y ∧
                   mem s !! y = Some ny ∧ prev ny = x).
Proof.
  intros Hlegal. destruct (run_spec s0 ops Hlegal) as (s & Hrun & Hdll & _).
  exists s. split_and!; [done| | | | | |].
  - intros fuel Hfuel. by apply (check_spec fuel s (contents ops)).
  - intros fuel Hfuel. by apply (check_short fuel s (contents ops)).
  - by destruct Hdll.
  - by destruct Hdll as (_ & ? & _).
  - intros x n Hx Hn. destruct Hdll as (_ & _ & Hch & _).
    destruct (contents ops) as [|a l]; [done|]. injection Hx as ->.
    destruct Hch as (_ & Hlk & _). rewrite Hlk in Hn. by injection Hn as <-.
  - intros i x y Hx Hy. destruct Hdll as (_ & _ & Hch & _).
    by apply (chain_adjacent _ _ _ _ _ _ _ Hch Hx Hy).
Qed.

Lemma check_never_aborts_witness :
  ∃ s, run [OpEnqueue 16; OpPushback 32; OpPush 48; OpPop; OpRemove 16;
            OpPushback 16] (sample_state 3) = Ok (tt, s) ∧
       dlist_check 3 s = Ok (tt, s).
Proof.
  destruct (check_never_aborts (sample_state 3)
              [OpEnqueue 16; OpPushback 32; OpPush 48; OpPop; OpRemove 16;
               OpPushback 16])
    as (s & Hrun & Hchk & _).
  - by_computation.
  - exists s. split; [assumption|]. apply Hchk. vm_compute. lia.
Defined.

(** C9, as the specification states it, fails: after a node has been
    enqueued twice, which the public operations allow, the first node's
    [prev] is the node itself and [dlist_check] fails its assertion. *)
Lemma double_enqueue_fails_check :
  ∃ s n, run [OpEnqueue 16; OpEnqueue 16] (sample_state 1) = Ok (tt, s) ∧
         head (root s) = 16 ∧ mem s !! 16 = Some n ∧ prev n = 16 ∧
         dlist_check 2 s = AssertFail.
Proof. eexists _, _. split_and!; vm_compute; reflexivity. Qed.

(** ** Folds with a reducer that says when to stop *)

(** C6.  On a list of [n] nodes, with fuel for [n] iterations and one
    more: if the reducer sets the termination signal on the [k]-th record
    it is shown, and on none before, the forward fold and the backward
    fold each call it on the first [k] records of their order and on no
    other, [k] calls in all, and return what the [k]-th call returned; if
    the reducer never sets the signal, it is called on all the [n]
    records.  Tracing the calls changes nothing to what the fold
    returns. *)
Theorem fold_termination off {A E} (f : @reducer A E) s l a0 e0 fuel :
  dll s l → (length l < fuel)%nat →
  (∀ k a' e', fires_at f (records off l) a0 e0 k a' e' →
     ∃ tr, dlist_T_foldr off fuel (traced f) a0 s (e0, []) = Ok (a', (e', tr)) ∧
           tr = take k (records off l) ∧ length tr = k ∧
           dlist_T_foldr off fuel f a0 s e0 = Ok (a', e')) ∧
  (∀ k a' e', fires_at f (records off (rev l)) a0 e0 k a' e' →
     ∃ tr, dlist_T_foldl off fuel (traced f) a0 s (e0, []) = Ok (a', (e', tr)) ∧
           tr = take k (records off (rev l)) ∧ length tr = k ∧
           dlist_T_foldl off fuel f a0 s e0 = Ok (a', e')) ∧
  (∀ a' e', quiet f (records off l) a0 e0 = Some (a', e') →
     ∃ tr, dlist_T_foldr off fuel (traced f) a0 s (e0, []) = Ok (a', (e', tr)) ∧
           tr = records off l ∧ length tr = length l ∧
           dlist_T_foldr off fuel f a0 s e0 = Ok (a', e')) ∧
  (∀ a' e', quiet f (records off (rev l)) a0 e0 = Some (a', e') →
     ∃ tr, dlist_T_foldl off fuel (traced f) a0 s (e0, []) = Ok (a', (e', tr)) ∧
           tr = records off (rev l) ∧ length tr = length l ∧
           dlist_T_foldl off fuel f a0 s e0 = Ok (a', e')).
Proof.
  intros Hdll Hfuel.
  assert (Herase : ∀ rs a' e' tr,
            reduce (traced f) rs a0 (e0, []) = (a', (e', tr)) →
            reduce f rs a0 e0 = (a', e')).
  { intros rs a' e' tr Hred.
    pose proof (reduce_traced_erase f rs a0 e0 []) as Her. by rewrite Hred in Her. }
  split_and!.
  - intros k a' e' Hfire.
    destruct (reduce_traced_fires f _ a0 e0 [] k a' e' Hfire) as [Hred Hlen].
    rewrite app_nil_l in Hred.
    eexists. rewrite (foldr_spec off (traced f) fuel s l) by done.
    rewrite (foldr_spec off f fuel s l) by done.
    rewrite Hred, (Herase _ _ _ _ Hred). done.
  - intros k a' e' Hfire.
    destruct (reduce_traced_fires f _ a0 e0 [] k a' e' Hfire) as [Hred Hlen].
    rewrite app_nil_l in Hred.
    eexists. rewrite (foldl_spec off (traced f) fuel s l) by done.
    rewrite (foldl_spec off f fuel s l) by done.
    rewrite Hred, (Herase _ _ _ _ Hred). done.
  - intros a' e' Hq.
    pose proof (reduce_traced_quiet f _ a0 e0 [] a' e' Hq) as Hred.
    rewrite app_nil_l in Hred.
    eexists. rewrite (foldr_spec off (traced f) fuel s l) by done.
    rewrite (foldr_spec off f fuel s l) by done.
    rewrite Hred, (Herase _ _ _ _ Hred). split_and!; try done.
    unfold records. apply length_map.
  - intros a' e' Hq.
    pose proof (reduce_traced_quiet f _ a0 e0 [] a' e' Hq) as Hred.
    rewrite app_nil_l in Hred.
    eexists. rewrite (foldl_spec off (traced f) fuel s l) by done.
    rewrite (foldl_spec off f fuel s l) by done.
    rewrite Hred, (Herase _ _ _ _ Hred). split_and!; try done.
    unfold records. by rewrite length_map, length_rev.
Qed.

Lemma fold_termination_witness :
  (∃ tr, dlist_T_foldr 0 4 (traced (is_value id 32)) NULL linked3 (tt, [])
         = Ok (32, (tt, tr)) ∧ length tr = 2%nat) ∧
  (∃ tr, dlist_T_foldl 0 4 (traced (is_value id 16)) NULL linked3 (tt, [])
         = Ok (16, (tt, tr)) ∧ length tr = 3%nat).
Proof.
  destruct (fold_termination 0 (is_value id 32) linked3 [16; 32; 48] NULL tt 4)
    as (Hfwd & _); [solve_dll|vm_compute; lia|].
  destruct (fold_termination 0 (is_value id 16) linked3 [16; 32; 48] NULL tt 4)
    as (_ & Hbwd & _); [solve_dll|vm_compute; lia|].
  split.
  - destruct (Hfwd 2%nat 32 tt) as (tr & Hrun & _ & Hlen & _).
    { exists 1%nat, 32, NULL, tt. by vm_compute. }
    exists tr. by split.
  - destruct (Hbwd 3%nat 16 tt) as (tr & Hrun & _ & Hlen & _).
    { exists 2%nat, 16, NULL, tt. by vm_compute. }
    exists tr. by split.
Defined.

(** ** The two orders of traversal *)

(** C7 (as amended).  On a list that [dlist_init] and any number of
    [enqueue], [pushback], [push], [pop], [dequeue] and [remove] have
    produced, where every node inserted is alive and not linked in the
    list at that time and every node removed is linked in it, a reducer
    that never stops the fold is
    called by the forward fold on the records from the head to the tail
    along [next], by the backward fold on the same records from the tail
    to the head along [prev]; the one order is the reverse of the other
    and each record is visited once. *)
Theorem fold_orders off {A E} (f : @reducer A E) s0 ops a0 e0 fuel :
  legal (mem s0) ops →
  (length (contents ops) < fuel)%nat →
  (∀ r a e, (f r a e).1.2 = false) →
  ∃ s fwd bwd ar er al el,
    run ops s0 = Ok (tt, s) ∧ dll s (contents ops) ∧
    dlist_T_foldr off fuel (traced f) a0 s (e0, []) = Ok (ar, (er, fwd)) ∧
    dlist_T_foldl off fuel (traced f) a0 s (e0, []) = Ok (al, (el, bwd)) ∧
    fwd = records off (contents ops) ∧
    bwd = records off (rev (contents ops)) ∧
    bwd = rev fwd ∧ NoDup fwd ∧ NoDup bwd ∧ (∀ r, r ∈ fwd ↔ r ∈ bwd).
Proof.
  intros Hlegal Hfuel Hnever.
  destruct (run_spec s0 ops Hlegal) as (s & Hrun & Hdll & _).
  pose proof (quiet_never f (records off (contents ops)) a0 e0 Hnever) as Hqf.
  pose proof (quiet_never f (records off (rev (contents ops))) a0 e0 Hnever) as Hqb.
  destruct (reduce f (records off (contents ops)) a0 e0) as [ar er].
  destruct (reduce f (records off (rev (contents ops))) a0 e0) as [al el].
  exists s, (records off (contents ops)), (records off (rev (contents ops))),
    ar, er, al, el.
  assert (Hrev : records off (rev (contents ops)) = rev (records off (contents ops))).
  { unfold records. apply map_rev. }
  assert (Hnd : NoDup (records off (contents ops))).
  { apply records_inj. by destruct Hdll as (_ & _ & _ & ?). }
  split_and!; try done.
  - rewrite (foldr_spec off (traced f) fuel s _ _ _ Hdll Hfuel).
    by rewrite (reduce_traced_quiet f _ _ _ _ _ _ Hqf).
  - rewrite (foldl_spec off (traced f) fuel s _ _ _ Hdll Hfuel).
    by rewrite (reduce_traced_quiet f _ _ _ _ _ _ Hqb).
  - rewrite Hrev. by apply NoDup_ListNoDup, List.NoDup_rev, NoDup_ListNoDup.
  - intros r. rewrite Hrev, !list_elem_of_In. apply in_rev.
Qed.

Lemma fold_orders_witness :
  ∃ s fwd bwd ar er al el,
    run [OpEnqueue 16; OpEnqueue 32; OpEnqueue 48] (sample_state 3) = Ok (tt, s) ∧
    dll s [48; 32; 16] ∧
    dlist_T_foldr 0 4 (traced visit_all) NULL s (tt, []) = Ok (ar, (er, fwd)) ∧
    dlist_T_foldl 0 4 (traced visit_all) NULL s (tt, []) = Ok (al, (el, bwd)) ∧
    fwd = [48; 32; 16] ∧ bwd = [16; 32; 48] ∧
    bwd = rev fwd ∧ NoDup fwd ∧ NoDup bwd ∧ (∀ r, r ∈ fwd ↔ r ∈ bwd).
Proof.
  apply (fold_orders 0 visit_all (sample_state 3)
           [OpEnqueue 16; OpEnqueue 32; OpEnqueue 48] NULL tt 4).
  - by_computation.
  - vm_compute. lia.
  - done.
Defined.

(** C7, as the specification states it, fails: after a node has been
    enqueued twice its [next] is the node itself, and the forward fold
    visits its record again and again, three times here before the
    reducer stops it. *)
Lemma double_enqueue_fold_revisits :
  ∃ s tr, run [OpEnqueue 16; OpEnqueue 16] (sample_state 1) = Ok (tt, s) ∧
          dlist_T_foldr 0 4 (traced (stop_after 3)) NULL s (0%nat, [])
          = Ok (16, (3%nat, tr)) ∧
          tr = [16; 16; 16] ∧ ¬ NoDup tr.
Proof.
  eexists _, _. split_and!; [vm_compute; reflexivity..|].
  intros Hnd. apply NoDup_cons in Hnd as [Hin _]. apply Hin. left.
Qed.

(** ** Scenario B *)

(** C8.  After [init] and [pushback] of twenty records that carry the
    values 1 to 20 in this order, [pop] returns the record that carries 1,
    then [dequeue] the one that carries 20; the list that remains has
    eighteen nodes, its head carries 2 and its tail 19. *)
Theorem scenario_B_spec off s0 recs (data : ptr → Z) :
  data <$> recs = seqZ 1 20 →
  Forall (λ r, valid_node (mem s0) (field_addr r off)) recs →
  ∃ p d h t s l,
    scenario_B off recs s0 = Ok ((p, d, h, t), s) ∧
    data p = 1 ∧ data d = 20 ∧ data h = 2 ∧ data t = 19 ∧
    dll s l ∧ length l = 18%nat ∧ data <$> records off l = seqZ 2 18.
Proof.
  intros Hdata Hall.
  assert (Hnd : NoDup recs).
  { apply (NoDup_fmap_1 data). rewrite Hdata. apply NoDup_seqZ. }
  destruct (init_spec s0) as (s1 & Hrun1 & Hdll1 & Hmem1).
  destruct (insert_all_pushback_spec off recs s1 [] Hdll1) as (s2 & Hrun2 & Hdll2 & _).
  { split; [done|]. rewrite Hmem1. eapply Forall_impl; [exact Hall|].
    intros r Hv. split; [done|apply not_elem_of_nil]. }
  rewrite app_nil_l in Hdll2.
  destruct (pop_spec s2 _ Hdll2) as (s3 & Hrun3 & Hdll3 & _).
  destruct (dequeue_spec s3 _ Hdll3) as (s4 & Hrun4 & Hdll4 & _).
  pose proof Hdll4 as (Hhd4 & Htl4 & _).
  assert (Hs : seqZ 1 20 = [1; 2; 3; 4; 5; 6; 7; 8; 9; 10;
                            11; 12; 13; 14; 15; 16; 17; 18; 19; 20]) by reflexivity.
  rewrite Hs in Hdata.
  do 20 (destruct recs as [|? recs]; [done|]). destruct recs; [|done].
  cbn [fmap list_fmap] in Hdata. simplify_eq.
  cbn [links map hd List.tl removelast] in *.
  cbn [List.last] in *.
  exists p, p18, p0, p17, s4.
  eexists. split_and!; [|done|done|done|done|exact Hdll4|reflexivity|].
  - unfold scenario_B, dlist_T_init.
    rewrite (bind_ok _ _ _ _ _ Hrun1), (bind_ok _ _ _ _ _ Hrun2).
    rewrite (bind_ok _ _ _ _ _ (T_pop_run off _ _ _ Hrun3)).
    rewrite (bind_ok _ _ _ _ _ (T_dequeue_run off _ _ _ Hrun4)).
    unfold dlist_T_head, dlist_T_tail, dlist_head, dlist_tail.
    destruct s4 as [r4 h4]. cbn [root] in Hhd4, Htl4. mrun.
    by rewrite Hhd4, Htl4, !container_field.
  - cbn [records map fmap list_fmap]. rewrite !container_field.
    repeat match goal with H : data _ = _ |- _ => rewrite H; clear H end.
    reflexivity.
Qed.

Lemma scenario_B_spec_witness :
  ∃ p d h t s,
    scenario_B 0 ((λ i, 16 * i) <$> seqZ 1 20) (sample_state 20)
    = Ok ((p, d, h, t), s) ∧
    p / 16 = 1 ∧ d / 16 = 20 ∧ h / 16 = 2 ∧ t / 16 = 19.
Proof.
  destruct (scenario_B_spec 0 (sample_state 20) ((λ i, 16 * i) <$> seqZ 1 20)
              (λ r, r / 16))
    as (p & d & h & t & s & l & Hrun & Hp & Hd & Hh & Ht & _).
  - by vm_compute.
  - by_computation.
  - exists p, d, h, t, s. by split_and!.
Defined.

(** ** More steps: computations that stop *)

Section Stops.
Context {B : Type}.
Implicit Types (k : unit → M B) (kp : ptr → M B).

Lemma bind_assert_false k s : (assert false ≫= k) s = AssertFail.
Proof. reflexivity. Qed.

Lemma bind_load_next_fault p kp r h :
  deref h p = None → (load_next p ≫= kp) (mk_state r h) = Fault.
Proof. intros H. unfold mbind, M_bind, load_next. simpl. by rewrite H. Qed.

Lemma bind_load_prev_fault p kp r h :
  deref h p = None → (load_prev p ≫= kp) (mk_state r h) = Fault.
Proof. intros H. unfold mbind, M_bind, load_prev. simpl. by rewrite H. Qed.

Lemma bind_store_next_fault p v k r h :
  deref h p = None → (store_next p v ≫= k) (mk_state r h) = Fault.
Proof. intros H. unfold mbind, M_bind, store_next. simpl. by rewrite H. Qed.

Lemma bind_store_prev_fault p v k r h :
  deref h p = None → (store_prev p v ≫= k) (mk_state r h) = Fault.
Proof. intros H. unfold mbind, M_bind, store_prev. simpl. by rewrite H. Qed.
End Stops.

Lemma deref_lookup h p n : deref h p = Some n → p ≠ NULL ∧ h !! p = Some n.
Proof.
  unfold deref. destruct (Z.eqb_spec p NULL) as [->|Hne]; [done|]. by split.
Qed.

Lemma node_eta n : mk_node (next n) (prev n) = n.
Proof. by destruct n. Qed.

(** ** Chains that end are made of distinct nodes *)

Lemma chain_determined h p1 p2 l1 l2 :
  chain h p1 l1 NULL → chain h p2 l2 NULL → hd NULL l1 = hd NULL l2 → l1 = l2.
Proof.
  revert p1 p2 l2. induction l1 as [|x l1 IH]; intros p1 p2 l2 H1 H2 Hhd.
  - destruct l2 as [|y l2]; [done|]. destruct H2 as (Hy & _). simpl in Hhd. done.
  - destruct H1 as (Hx & Hlk1 & H1). destruct l2 as [|y l2]; [done|].
    simpl in Hhd. subst y. destruct H2 as (_ & Hlk2 & H2).
    rewrite Hlk1 in Hlk2. injection Hlk2 as Hnext _.
    f_equal. by apply (IH x x).
Qed.

Lemma chain_NoDup h prv l : chain h prv l NULL → NoDup l.
Proof.
  revert prv. induction l as [|x l IH]; intros prv Hch; [constructor|].
  pose proof Hch as (Hx & Hlk & Hch'). apply NoDup_cons. split; [|by apply (IH x)].
  intros Hin. apply list_elem_of_split in Hin as (l1 & l2 & ->).
  pose proof Hch' as Hsplit. apply chain_app in Hsplit as (_ & Hsuf).
  assert (Heq : x :: l1 ++ x :: l2 = x :: l2).
  { by apply (chain_determined h prv (List.last l1 x)). }
  apply (f_equal length) in Heq. simpl in Heq. rewrite length_app in Heq.
  simpl in Heq. lia.
Qed.

(** ** What [dlist_check] accepts *)

Lemma check_loop_sound fuel h r p last_ptr res :
  dlist_check_loop fuel p last_ptr (mk_state r h) = Ok res →
  res = (tt, mk_state r h) ∧
  ∃ l, hd NULL l = p ∧ chain h last_ptr l NULL ∧ tail r = List.last l last_ptr.
Proof.
  revert p last_ptr. induction fuel as [|fuel IH]; intros p last_ptr; [done|].
  cbn [dlist_check_loop].
  destruct (Z.eqb_spec p NULL) as [->|Hp].
  - rewrite bind_get_tail. unfold assert.
    destruct (Z.eqb_spec last_ptr (tail r)) as [Heq|Hne]; [|done].
    intros [= <-]. split; [done|]. exists []. done.
  - assert (Hstep : ∀ np, deref h p = Some np → prev np = last_ptr →
              dlist_check_loop fuel (next np) p (mk_state r h) = Ok res →
              res = (tt, mk_state r h) ∧
              ∃ l, hd NULL l = p ∧ chain h last_ptr l NULL ∧
                   tail r = List.last l last_ptr).
    { intros np Hdp Hprev Hrec.
      destruct (IH _ _ Hrec) as (Hres & l & Hhd & Hch & Htl).
      split; [done|]. exists (p :: l). split_and!; [done| |by rewrite dlast_cons].
      apply deref_lookup in Hdp as [_ Hlk].
      split_and!; [done| |done]. by rewrite Hhd, <- Hprev, node_eta. }
    destruct (Z.eqb_spec last_ptr NULL) as [Hl|Hl]; cbn [negb]; rewrite !bind_assoc.
    + destruct (deref h p) as [np|] eqn:Hdp.
      * rewrite (bind_load_prev _ _ _ _ _ Hdp).
        destruct (Z.eqb_spec (prev np) NULL) as [Heq|Hne].
        -- rewrite bind_assert_true, (bind_load_next _ _ _ _ _ Hdp).
           apply Hstep; congruence.
        -- by rewrite bind_assert_false.
      * by rewrite (bind_load_prev_fault _ _ _ _ Hdp).
    + destruct (deref h last_ptr) as [nl|] eqn:Hdl.
      * rewrite (bind_load_next _ _ _ _ _ Hdl).
        destruct (next nl =? p); rewrite ?bind_assoc.
        -- rewrite bind_assert_true, ?bind_assoc.
           destruct (deref h p) as [np|] eqn:Hdp.
           ++ rewrite (bind_load_prev _ _ _ _ _ Hdp).
              destruct (Z.eqb_spec last_ptr (prev np)) as [Heq|Hne].
              ** rewrite ?bind_assoc, bind_assert_true, (bind_load_next _ _ _ _ _ Hdp).
                 apply Hstep; congruence.
              ** by rewrite ?bind_assoc, bind_assert_false.
           ++ by rewrite (bind_load_prev_fault _ _ _ _ Hdp).
        -- by rewrite bind_assert_false.
      * by rewrite (bind_load_next_fault _ _ _ _ Hdl).
Qed.

Lemma check_sound fuel s res :
  dlist_check fuel s = Ok res → res = (tt, s) ∧ ∃ l, dll s l.
Proof.
  destruct s as [r h]. unfold dlist_check. rewrite bind_get_head. intros Hrun.
  destruct (check_loop_sound _ _ _ _ _ _ Hrun) as (Hres & l & Hhd & Hch & Htl).
  split; [done|]. exists l. split_and!; [done|done|done|by apply (chain_NoDup h NULL)].
Qed.

(** X1.  [dlist_check] returns on the well-formed lists and on nothing
    else: if it returns, for whatever fuel, it has changed nothing and
    the handle and the memory hold a list of distinct nodes, linked both
    ways, with the head in front and the tail at the back; and on such a
    list it returns as soon as it has fuel for one iteration more than
    there are nodes. *)
Theorem check_accepts_exactly_lists s :
  (∀ fuel res, dlist_check fuel s = Ok res → res = (tt, s) ∧ ∃ l, dll s l) ∧
  (∀ l fuel, dll s l → (length l < fuel)%nat → dlist_check fuel s = Ok (tt, s)).
Proof.
  split.
  - intros fuel res. apply check_sound.
  - intros l fuel Hdll Hfuel. by apply (check_spec fuel s l).
Qed.

(** ** [dlist_check] walking along a chain *)

Lemma check_loop_walk fuel h r prv l nxt :
  chain h prv l nxt →
  (prv ≠ NULL → ∃ n, deref h prv = Some n ∧ next n = hd nxt l) →
  dlist_check_loop (length l + fuel) (hd nxt l) prv (mk_state r h)
  = dlist_check_loop fuel nxt (List.last l prv) (mk_state r h).
Proof.
  revert prv. induction l as [|x l IH]; intros prv Hch Hprv; [done|].
  pose proof Hch as (Hx & Hlk & Hch').
  pose proof (deref_chain_hd _ _ _ _ _ Hch) as Hdx.
  cbn [length Nat.add dlist_check_loop hd]. rewrite (eqb_ne x NULL) by done.
  rewrite dlast_cons.
  destruct (Z.eqb_spec prv NULL) as [->|Hne]; mrun.
  - rewrite (bind_load_prev _ _ _ _ _ Hdx). mrun.
    rewrite (bind_load_next _ _ _ _ _ Hdx). mrun.
    apply (IH x); [done|eauto].
  - destruct (Hprv Hne) as (n & Hdp & Hnx). cbn [hd] in Hnx.
    rewrite (bind_load_next _ _ _ _ _ Hdp). rewrite Hnx. mrun.
    rewrite (bind_load_prev _ _ _ _ _ Hdx). mrun.
    rewrite (bind_load_next _ _ _ _ _ Hdx). mrun.
    apply (IH x); [done|eauto].
Qed.

Lemma chain_pred_points h prv l nxt :
  chain h prv l nxt → l ≠ [] →
  ∃ n, deref h (List.last l prv) = Some n ∧ next n = nxt.
Proof.
  intros Hch Hl. destruct (snoc_cases l) as [->|(l' & y & ->)]; [done|].
  rewrite dlast_snoc. rewrite (deref_chain_last _ _ _ _ _ Hch). eauto.
Qed.

(** X2.  [dlist_check] finds a [prev] link or a tail that was changed by
    hand.  On a well-formed list, once the [prev] of any of its nodes has
    been given another value, or the handle's tail another value, the
    check fails an assertion (it neither returns nor faults), whatever
    fuel it has beyond the length of the list. *)
Theorem check_detects_corruption s l fuel :
  dll s l → (length l < fuel)%nat →
  (∀ x n q, x ∈ l → mem s !! x = Some n → q ≠ prev n →
     dlist_check fuel (mk_state (root s) (<[x := mk_node (next n) q]> (mem s)))
     = AssertFail) ∧
  (∀ t, t ≠ tail (root s) →
     dlist_check fuel (mk_state (mk_root (head (root s)) t) (mem s)) = AssertFail).
Proof.
  destruct s as [[hd0 tl0] h]. intros (Hhd & Htl & Hch & Hnd) Hfuel.
  cbn [root head tail mem] in *. subst. split.
  - intros x n q Hin Hn Hq.
    apply list_elem_of_split in Hin as (l1 & l2 & ->).
    pose proof Hch as Hch0. apply chain_app in Hch0 as (Hch1 & Hchx).
    pose proof Hchx as (Hx & Hlkx & Hch2). cbn [hd] in Hch1.
    rewrite Hlkx in Hn. injection Hn as <-. cbn [next prev] in *.
    apply NoDup_app in Hnd as (_ & Hdis & _).
    assert (Hx1 : x ∉ l1) by (intros Hin; apply (Hdis x Hin); left).
    set (h' := <[x := mk_node (hd NULL l2) q]> h).
    assert (Hch1' : chain h' NULL l1 x) by by apply chain_insert_notin.
    assert (Hdx : deref h' x = Some (mk_node (hd NULL l2) q))
      by by apply deref_insert_eq.
    rewrite length_app in Hfuel. cbn [length] in Hfuel.
    replace fuel with (length l1 + S (fuel - length l1 - 1))%nat by lia.
    unfold dlist_check. mrun. rewrite hd_app_default. cbn [hd].
    rewrite (check_loop_walk _ h' _ NULL l1 x Hch1') by done.
    cbn [dlist_check_loop]. rewrite (eqb_ne x NULL) by done.
    destruct (decide (l1 = [])) as [->|Hl1].
    + change (List.last [] NULL) with NULL in *. mrun.
      rewrite (bind_load_prev _ _ _ _ _ Hdx). mrun.
      rewrite (eqb_ne q NULL) by done. by rewrite bind_assert_false.
    + destruct (chain_pred_points _ _ _ _ Hch1' Hl1) as (nz & Hdz & Hnz).
      assert (Hz : List.last l1 NULL ≠ NULL).
      { apply deref_lookup in Hdz as [? _]. done. }
      rewrite (eqb_ne _ NULL Hz). mrun.
      rewrite (bind_load_next _ _ _ _ _ Hdz), Hnz. mrun.
      rewrite (bind_load_prev _ _ _ _ _ Hdx). mrun.
      rewrite (eqb_ne (List.last l1 NULL) q) by done. by rewrite bind_assert_false.
  - intros t Ht.
    replace fuel with (length l + S (fuel - length l - 1))%nat by lia.
    unfold dlist_check. mrun.
    rewrite (check_loop_walk _ h _ NULL l NULL Hch) by done.
    cbn [dlist_check_loop]. mrun. unfold assert.
    by rewrite (eqb_ne (List.last l NULL) t).
Qed.

Lemma check_detects_corruption_witness :
  dlist_check 4 (mk_state (root linked3) (<[16 := mk_node 32 48]> (mem linked3)))
  = AssertFail ∧
  dlist_check 4 (mk_state (mk_root 16 32) (mem linked3)) = AssertFail.
Proof.
  destruct (check_detects_corruption linked3 [16; 32; 48] 4) as [Hprev Htail].
  - solve_dll.
  - vm_compute. lia.
  - split.
    + apply (Hprev 16 (mk_node 32 NULL) 48); [by_computation|reflexivity|done].
    + apply (Htail 32). done.
Defined.

(** ** Removal at the ends, by [dlist_remove] *)

(** X3.  On a list that is not empty, [dlist_remove] of the head does to
    the handle and to the memory exactly what [dlist_pop] does, and
    [dlist_remove] of the tail exactly what [dlist_dequeue] does. *)
Theorem remove_end_is_pop_or_dequeue s l :
  dll s l → l ≠ [] →
  (∃ s', dlist_pop s = Ok (hd NULL l, s') ∧
         dlist_remove (hd NULL l) s = Ok (tt, s')) ∧
  (∃ s', dlist_dequeue s = Ok (List.last l NULL, s') ∧
         dlist_remove (List.last l NULL) s = Ok (tt, s')).
Proof.
  destruct s as [[hd0 tl0] h]. intros (Hhd & Htl & Hch & Hnd) Hl.
  cbn [root head tail mem] in *. subst. split.
  - destruct l as [|x l]; [done|]. clear Hl.
    pose proof Hch as (Hx & Hlk & Hch').
    pose proof (deref_chain_hd _ _ _ _ _ Hch) as Hdx.
    apply NoDup_cons in Hnd as [Hxl Hnd].
    unfold dlist_pop, dlist_remove. mrun. rewrite (eqb_ne x NULL) by done.
    rewrite !(bind_load_next _ _ _ _ _ Hdx), (bind_load_prev _ _ _ _ _ Hdx). mrun.
    rewrite (bind_load_next _ _ _ _ _ Hdx). mrun.
    rewrite (bind_load_next _ _ _ _ _ Hdx). mrun.
    destruct l as [|y l].
    + change (List.last [x] NULL) with x. mrun.
      rewrite (bind_load_prev _ _ _ _ _ Hdx). mrun. eexists. split; reflexivity.
    + rewrite dlast_cons_cons.
      rewrite (eqb_ne (List.last (y :: l) NULL) x).
      2:{ intros Heq. apply Hxl. rewrite <- Heq. by apply dlast_elem_of. }
      pose proof Hch' as (Hy & _). mrun. rewrite (eqb_ne y NULL) by done. mrun.
      rewrite (bind_load_prev _ _ _ _ _ Hdx). mrun.
      rewrite (bind_store_prev _ _ _ _ _ _ (deref_chain_hd _ _ _ _ _ Hch')).
      rewrite (run_store_prev _ _ _ _ _ (deref_chain_hd _ _ _ _ _ Hch')).
      mrun. eexists. split; reflexivity.
  - destruct (snoc_cases l) as [->|(l' & y & ->)]; [done|]. clear Hl.
    pose proof Hch as Hch0. apply chain_snoc in Hch0 as (Hch' & Hy & Hlk).
    pose proof (deref_chain_last _ _ _ _ _ Hch) as Hdy.
    apply NoDup_app in Hnd as (Hnd' & Hdis & _).
    assert (Hyl : y ∉ l') by (intros Hin; apply (Hdis y Hin); left).
    rewrite dlast_snoc. unfold dlist_dequeue, dlist_remove. mrun.
    rewrite (eqb_ne y NULL) by done.
    rewrite !(bind_load_prev _ _ _ _ _ Hdy). mrun.
    destruct (snoc_cases l') as [->|(l'' & z & ->)].
    + change (List.last [] NULL) with NULL. cbn [app hd]. mrun.
      rewrite (bind_load_next _ _ _ _ _ Hdy). mrun.
      rewrite (bind_load_next _ _ _ _ _ Hdy). mrun.
      rewrite (bind_load_prev _ _ _ _ _ Hdy). mrun.
      change (List.last [] NULL) with NULL. eexists. split; reflexivity.
    + rewrite dlast_snoc.
      rewrite (eqb_ne (hd NULL ((l'' ++ [z]) ++ [y])) y).
      2:{ rewrite hd_app_default. intros Heq. apply Hyl. rewrite <- Heq.
          rewrite hd_app_default. destruct l''; simpl; left. }
      pose proof Hch' as Hch''. apply chain_snoc in Hch'' as (_ & Hz & Hlkz).
      pose proof (deref_chain_last _ _ _ _ _ Hch') as Hdz.
      assert (Hzy : z ≠ y).
      { intros ->. apply Hyl. apply elem_of_app. right. left. }
      mrun. rewrite (eqb_ne z NULL) by done. mrun.
      rewrite (bind_load_next _ _ _ _ _ Hdy). mrun.
      rewrite !(bind_store_next _ _ _ _ _ _ Hdz). mrun.
      assert (Hdy' : deref (<[z := mk_node NULL (List.last l'' NULL)]> h) y
                     = Some (mk_node NULL z)).
      { rewrite deref_insert_ne by done. by rewrite Hdy, dlast_snoc. }
      rewrite (bind_load_next _ _ _ _ _ Hdy'). mrun.
      rewrite (bind_load_prev _ _ _ _ _ Hdy'). mrun.
      eexists. split; reflexivity.
Qed.

Lemma remove_end_is_pop_or_dequeue_witness :
  (∃ s', dlist_pop linked3 = Ok (16, s') ∧ dlist_remove 16 linked3 = Ok (tt, s')) ∧
  (∃ s', dlist_dequeue linked3 = Ok (48, s') ∧ dlist_remove 48 linked3 = Ok (tt, s')).
Proof.
  apply (remove_end_is_pop_or_dequeue linked3 [16; 32; 48]); [solve_dll|done].
Defined.

(** ** Removing a node twice *)

Lemma chain_agree h h' prv l nxt y :
  chain h prv l nxt → chain h' prv l nxt → y ∈ l → h' !! y = h !! y.
Proof.
  revert prv. induction l as [|x l IH]; intros prv H1 H2 Hy.
  - by apply elem_of_nil in Hy.
  - destruct H1 as (_ & Hlk1 & H1). destruct H2 as (_ & Hlk2 & H2).
    destruct (decide (y = x)) as [->|Hne]; [congruence|].
    apply elem_of_cons in Hy as [?|Hy]; [done|]. by apply (IH x).
Qed.

(** X4.  [dlist_remove] called a second time on the node it has just
    removed: if the node was the head or the tail of the list the second
    call fails an assertion; if it was an interior node the second call
    goes through and changes nothing, so the mistake passes unnoticed. *)
Theorem remove_twice s l1 x l2 :
  dll s (l1 ++ x :: l2) →
  ∃ s', dlist_remove x s = Ok (tt, s') ∧ dll s' (l1 ++ l2) ∧
        (l1 = [] ∨ l2 = [] → dlist_remove x s' = AssertFail) ∧
        (l1 ≠ [] → l2 ≠ [] → dlist_remove x s' = Ok (tt, s')).
Proof.
  intros Hdll.
  assert (Hin : x ∈ l1 ++ x :: l2) by (apply elem_of_app; right; left).
  destruct (remove_spec s _ x Hdll Hin) as (s' & Hrun & Hdll' & _ & [Hfrx _]).
  pose proof Hdll as (_ & _ & Hch & Hnd).
  rewrite (filter_ne_middle _ _ _ Hnd) in Hdll'.
  exists s'. split_and!; [done|done| |].
  - (* an end of the list *)
    apply chain_app in Hch as (Hch1 & (Hx & Hlkx & Hch2)). cbn [hd] in Hch1.
    apply NoDup_app in Hnd as (Hnd1 & Hdis & Hnd2).
    apply NoDup_cons in Hnd2 as [Hx2 Hnd2].
    assert (Hx1 : x ∉ l1) by (intros Hi; apply (Hdis x Hi); left).
    destruct s' as [[hd' tl'] h']. destruct Hdll' as (Hhd' & Htl' & Hch' & _).
    cbn [root head tail mem] in *. subst hd' tl'.
    rewrite <- Hfrx in Hlkx.
    pose proof (deref_Some _ _ _ Hx Hlkx) as Hdx.
    intros [-> | ->]; unfold dlist_remove.
    + change (List.last [] NULL) with NULL in *. cbn [app] in *.
      rewrite (bind_load_prev _ _ _ _ _ Hdx). mrun.
      rewrite (eqb_ne (hd NULL l2) x); [by rewrite bind_assert_false|].
      destruct l2 as [|w l2]; [done|]. cbn [hd]. intros ->. apply Hx2. left.
    + rewrite app_nil_r in *. cbn [hd] in *.
      rewrite (bind_load_prev _ _ _ _ _ Hdx). mrun.
      destruct (decide (l1 = [])) as [->|Hl1].
      * change (List.last [] NULL) with NULL. mrun.
        by rewrite (eqb_ne NULL x), bind_assert_false.
      * destruct (chain_pred_points _ _ _ _ Hch' Hl1) as (nz & Hdz & Hnz).
        assert (Hz : List.last l1 NULL ≠ NULL).
        { apply deref_lookup in Hdz as [? _]. done. }
        assert (Hzx : List.last l1 NULL ≠ x).
        { intros Heq. apply Hx1. rewrite <- Heq. by apply dlast_elem_of. }
        rewrite (eqb_ne _ NULL Hz). mrun.
        rewrite (bind_load_next _ _ _ _ _ Hdx). mrun.
        rewrite (bind_store_next _ _ _ _ _ _ Hdz). mrun.
        assert (Hdx' : deref (<[List.last l1 NULL := mk_node NULL (prev nz)]> h') x
                       = Some (mk_node NULL (List.last l1 NULL))).
        { by rewrite deref_insert_ne. }
        rewrite (bind_load_next _ _ _ _ _ Hdx'). mrun.
        by rewrite (eqb_ne (List.last l1 NULL) x), bind_assert_false.
  - (* an interior node *)
    intros Hl1 Hl2.
    apply chain_app in Hch as (Hch1 & (Hx & Hlkx & Hch2)). cbn [hd] in Hch1.
    destruct s' as [[hd' tl'] h']. destruct Hdll' as (_ & _ & Hch' & _).
    cbn [root head tail mem] in *.
    rewrite <- Hfrx in Hlkx.
    pose proof (deref_Some _ _ _ Hx Hlkx) as Hdx.
    apply chain_app in Hch' as (Hch1' & Hch2').
    destruct (chain_pred_points _ _ _ _ Hch1' Hl1) as (nz & Hdz & Hnz).
    destruct l2 as [|w l2]; [done|]. cbn [hd] in *.
    pose proof (deref_chain_hd _ _ _ _ _ Hch2') as Hdw.
    assert (Hz : List.last l1 NULL ≠ NULL).
    { apply deref_lookup in Hdz as [? _]. done. }
    destruct Hch2' as (Hw & Hlkw & _).
    apply deref_lookup in Hdz as [_ Hlkz].
    assert (Hidz : <[List.last l1 NULL := mk_node w (prev nz)]> h' = h').
    { apply insert_id. rewrite Hlkz. f_equal. rewrite <- Hnz. by destruct nz. }
    assert (Hidw : <[w := mk_node (hd NULL l2) (List.last l1 NULL)]> h' = h').
    { by apply insert_id. }
    unfold dlist_remove.
    rewrite (bind_load_prev _ _ _ _ _ Hdx). mrun.
    rewrite (eqb_ne _ NULL Hz). mrun.
    rewrite (bind_load_next _ _ _ _ _ Hdx). mrun.
    rewrite (bind_store_next _ _ _ _ _ _ (deref_Some _ _ _ Hz Hlkz)). mrun.
    rewrite Hidz.
    rewrite (bind_load_next _ _ _ _ _ Hdx). mrun.
    rewrite (eqb_ne w NULL) by done. mrun.
    rewrite (bind_load_prev _ _ _ _ _ Hdx). mrun.
    rewrite (run_store_prev _ _ _ _ _ Hdw). cbn [next]. by rewrite Hidw.
Qed.

Lemma remove_twice_witness :
  (∃ s', dlist_remove 16 linked3 = Ok (tt, s') ∧ dlist_remove 16 s' = AssertFail) ∧
  (∃ s', dlist_remove 32 linked3 = Ok (tt, s') ∧ dlist_remove 32 s' = Ok (tt, s')).
Proof.
  split.
  - destruct (remove_twice linked3 [] 16 [32; 48]) as (s' & H1 & _ & H2 & _);
      [solve_dll|]. exists s'. split; [done|]. apply H2. by left.
  - destruct (remove_twice linked3 [16] 32 [48]) as (s' & H1 & _ & _ & H2);
      [solve_dll|]. exists s'. split; [done|]. by apply H2.
Defined.

(** ** Taking a node out and putting it back *)

(** X5.  A node of the list can be moved: [dlist_remove] followed by
    [dlist_enqueue] of the same node brings it to the front,
    [dlist_remove] followed by [dlist_pushback] to the back, and the
    other nodes keep their order.  The links the node was left with by
    the removal do no harm. *)
Theorem remove_then_insert s l x :
  dll s l → x ∈ l →
  (∃ s', (dlist_remove x;; dlist_enqueue x) s = Ok (tt, s') ∧
         dll s' (x :: filter (λ y, y ≠ x) l)) ∧
  (∃ s', (dlist_remove x;; dlist_pushback x) s = Ok (tt, s') ∧
         dll s' (filter (λ y, y ≠ x) l ++ [x])).
Proof.
  intros Hdll Hin.
  destruct (remove_spec s l x Hdll Hin) as (s1 & Hrun1 & Hdll1 & Hdom1 & _).
  assert (Hv : valid_node (mem s1) x).
  { destruct Hdll as (_ & _ & Hch & _).
    apply (valid_node_dom (mem s)); [done|]. by apply (chain_valid _ _ _ _ _ Hch). }
  assert (Hx : x ∉ filter (λ y, y ≠ x) l).
  { intros Hx. apply list_elem_of_filter in Hx as [Hne _]. done. }
  split.
  - destruct (enqueue_spec s1 _ x Hdll1 Hv Hx) as (s2 & Hrun2 & Hdll2 & _).
    exists s2. split; [|done]. by rewrite (bind_ok _ _ _ _ _ Hrun1).
  - destruct (pushback_spec s1 _ x Hdll1 Hv Hx) as (s2 & Hrun2 & Hdll2 & _).
    exists s2. split; [|done]. by rewrite (bind_ok _ _ _ _ _ Hrun1).
Qed.

Lemma remove_then_insert_witness :
  (∃ s', (dlist_remove 32;; dlist_enqueue 32) linked3 = Ok (tt, s') ∧
         dll s' [32; 16; 48]) ∧
  (∃ s', (dlist_remove 32;; dlist_pushback 32) linked3 = Ok (tt, s') ∧
         dll s' [16; 48; 32]).
Proof.
  apply (remove_then_insert linked3 [16; 32; 48] 32); [solve_dll|by_computation].
Defined.

(** ** Insertion undone *)

(** X6.  [dlist_pop] right after [dlist_enqueue] of a node returns that
    node and puts back the list as it was: the same handle, the same
    nodes in the same order, and every other node of the memory with the
    links it had.  The same holds of [dlist_dequeue] right after
    [dlist_pushback]. *)
Theorem insert_then_remove s l x :
  dll s l → valid_node (mem s) x → x ∉ l →
  (∃ s', (dlist_enqueue x;; dlist_pop) s = Ok (x, s') ∧ dll s' l ∧
         root s' = root s ∧
         ∀ y, y ≠ x → y ≠ NULL → mem s' !! y = mem s !! y) ∧
  (∃ s', (dlist_pushback x;; dlist_dequeue) s = Ok (x, s') ∧ dll s' l ∧
         root s' = root s ∧
         ∀ y, y ≠ x → y ≠ NULL → mem s' !! y = mem s !! y).
Proof.
  intros Hdll Hv Hx.
  assert (Hroot : ∀ s', dll s' l → root s' = root s).
  { intros s' (Hhd' & Htl' & _). destruct Hdll as (Hhd & Htl & _).
    destruct (root s') as [h1 t1], (root s) as [h2 t2].
    cbn [head tail] in *. congruence. }
  assert (Hlist : ∀ s' y, dll s' l → y ∈ l → mem s' !! y = mem s !! y).
  { intros s' y (_ & _ & Hch' & _) Hy. destruct Hdll as (_ & _ & Hch & _).
    by apply (chain_agree _ _ NULL l NULL). }
  split.
  - destruct (enqueue_spec s l x Hdll Hv Hx) as (s1 & Hrun1 & Hdll1 & _ & Hfr1).
    destruct (pop_spec s1 _ Hdll1) as (s2 & Hrun2 & Hdll2 & _ & [_ Hfr2]).
    cbn [hd List.tl] in *.
    exists s2. split_and!; [|done|by apply Hroot|].
    + by rewrite (bind_ok _ _ _ _ _ Hrun1).
    + intros y Hyx Hy0. destruct (decide (y ∈ l)) as [Hyl|Hyl]; [by apply Hlist|].
      assert (Hyh : y ≠ hd NULL l).
      { destruct l as [|a l']; [done|]. cbn [hd]. intros ->. apply Hyl. left. }
      destruct Hdll1 as (_ & _ & (_ & Hlk & _) & _).
      rewrite (Hfr2 _ y Hlk); [by apply Hfr1|done|done].
  - destruct (pushback_spec s l x Hdll Hv Hx) as (s1 & Hrun1 & Hdll1 & _ & Hfr1).
    destruct (dequeue_spec s1 _ Hdll1) as (s2 & Hrun2 & Hdll2 & _ & [_ Hfr2]).
    rewrite dlast_snoc in *. rewrite removelast_snoc in *.
    exists s2. split_and!; [|done|by apply Hroot|].
    + by rewrite (bind_ok _ _ _ _ _ Hrun1).
    + intros y Hyx Hy0. destruct (decide (y ∈ l)) as [Hyl|Hyl]; [by apply Hlist|].
      assert (Hyt : y ≠ List.last l NULL).
      { destruct (decide (l = [])) as [->|Hl]; [done|].
        intros ->. apply Hyl. by apply dlast_elem_of. }
      destruct Hdll1 as (_ & _ & Hch1 & _).
      apply chain_snoc in Hch1 as (_ & _ & Hlk).
      rewrite (Hfr2 _ y Hlk); [by apply Hfr1|done|done].
Qed.

Lemma insert_then_remove_witness :
  (∃ s', (dlist_enqueue 64;; dlist_pop)
           (mk_state (root linked3) (<[64 := mk_node 170 85]> (mem linked3)))
         = Ok (64, s') ∧ dll s' [16; 32; 48]) ∧
  (∃ s', (dlist_pushback 64;; dlist_dequeue)
           (mk_state (root linked3) (<[64 := mk_node 170 85]> (mem linked3)))
         = Ok (64, s') ∧ dll s' [16; 32; 48]).
Proof.
  destruct (insert_then_remove
              (mk_state (root linked3) (<[64 := mk_node 170 85]> (mem linked3)))
              [16; 32; 48] 64)
    as [(s1 & H1 & D1 & _) (s2 & H2 & D2 & _)].
  - solve_dll.
  - split; [by vm_compute|vm_compute; eauto].
  - by_computation.
  - split; eauto.
Defined.


(** ** Looking a value up with a fold *)

Section Find.
Variables (data : ptr → Z) (v : Z) (miss : ptr).

Lemma reduce_find_hit pre r post a e :
  Forall (λ r', data r' ≠ v) pre → data r = v →
  reduce (is_value_or data v miss) (pre ++ r :: post) a e = (r, e).
Proof.
  intros Hpre Hr. revert a. induction pre as [|r' pre IH]; intros a.
  - cbn [app reduce]. unfold is_value_or. by rewrite Hr, Z.eqb_refl.
  - apply Forall_cons in Hpre as [Hr' Hpre].
    cbn [app reduce]. unfold is_value_or at 1. rewrite (eqb_ne _ _ Hr').
    by apply IH.
Qed.

Lemma reduce_find_miss rs a e :
  Forall (λ r', data r' ≠ v) rs →
  reduce (is_value_or data v miss) rs a e
  = (match rs with [] => a | _ :: _ => miss end, e).
Proof.
  intros Hrs. revert a. induction rs as [|r rs IH]; intros a; [done|].
  apply Forall_cons in Hrs as [Hr Hrs].
  cbn [reduce]. unfold is_value_or at 1. rewrite (eqb_ne _ _ Hr).
  rewrite (IH Hrs). by destruct rs.
Qed.
End Find.

Lemma fold_miss off data v miss a0 s l fuel :
  dll s l → (length l < fuel)%nat →
  Forall (λ r', data r' ≠ v) (records off l) →
  dlist_T_foldr off fuel (is_value_or data v miss) a0 s tt
  = Ok (match l with [] => a0 | _ :: _ => miss end, tt) ∧
  dlist_T_foldl off fuel (is_value_or data v miss) a0 s tt
  = Ok (match l with [] => a0 | _ :: _ => miss end, tt).
Proof.
  intros Hdll Hfuel Hall. split.
  - rewrite (foldr_spec off _ fuel s l) by done.
    rewrite (reduce_find_miss data v miss) by done. by destruct l.
  - rewrite (foldl_spec off _ fuel s l) by done.
    rewrite (reduce_find_miss data v miss).
    + destruct l as [|x l] using rev_ind; [done|].
      rewrite rev_unit. cbn [records map]. by destruct (l ++ [x]) eqn:E; [destruct l|].
    + unfold records in *. rewrite map_rev. by apply Forall_rev.
Qed.

(** X7.  A fold with a reducer made like [is_5], [is_16] and [is_38] of
    the unit test looks a value up: it returns the first record of its
    order that holds the value, the forward fold counting from the head
    and the backward fold from the tail; when no record holds the value it
    returns what the reducer returns for a record that does not match (0
    for [is_5], 0xdeadbeef for the other two), and on the empty list the
    initial accumulator. *)
Theorem fold_finds_first off data v miss a0 s l fuel :
  dll s l → (length l < fuel)%nat →
  (∀ pre r post,
     records off l = pre ++ r :: post →
     Forall (λ r', data r' ≠ v) pre → data r = v →
     dlist_T_foldr off fuel (is_value_or data v miss) a0 s tt = Ok (r, tt)) ∧
  (∀ pre r post,
     records off (rev l) = pre ++ r :: post →
     Forall (λ r', data r' ≠ v) pre → data r = v →
     dlist_T_foldl off fuel (is_value_or data v miss) a0 s tt = Ok (r, tt)) ∧
  (Forall (λ r', data r' ≠ v) (records off l) →
     dlist_T_foldr off fuel (is_value_or data v miss) a0 s tt
     = Ok (match l with [] => a0 | _ :: _ => miss end, tt) ∧
     dlist_T_foldl off fuel (is_value_or data v miss) a0 s tt
     = Ok (match l with [] => a0 | _ :: _ => miss end, tt)).
Proof.
  intros Hdll Hfuel. split_and!.
  - intros pre r post Hsplit Hpre Hr.
    rewrite (foldr_spec off _ fuel s l) by done.
    by rewrite Hsplit, (reduce_find_hit data v miss).
  - intros pre r post Hsplit Hpre Hr.
    rewrite (foldl_spec off _ fuel s l) by done.
    by rewrite Hsplit, (reduce_find_hit data v miss).
  - intros Hall. by apply fold_miss.
Qed.

Lemma fold_finds_first_witness :
  dlist_T_foldr 0 4 (is_value_or (λ r, r / 16) 2 NULL) NULL linked3 tt = Ok (32, tt) ∧
  dlist_T_foldl 0 4 (is_value_or (λ r, r / 16) 2 NULL) NULL linked3 tt = Ok (32, tt) ∧
  dlist_T_foldl 0 4 (is_value_or (λ r, r / 16) 5 POISON) NULL linked3 tt
  = Ok (POISON, tt).
Proof.
  destruct (fold_finds_first 0 (λ r, r / 16) 2 NULL NULL linked3 [16; 32; 48] 4)
    as (Hf & Hb & _); [solve_dll|vm_compute; lia|].
  destruct (fold_finds_first 0 (λ r, r / 16) 5 POISON NULL linked3 [16; 32; 48] 4)
    as (_ & _ & Hm); [solve_dll|vm_compute; lia|].
  split_and!.
  - apply (Hf [16] 32 [48]); [reflexivity|by_computation|reflexivity].
  - apply (Hb [48] 32 [16]); [reflexivity|by_computation|reflexivity].
  - apply Hm. by_computation.
Defined.

(** ** Find, remove, find again *)

Lemma records_elem_of off r l :
  r ∈ records off l → field_addr r off ∈ l.
Proof.
  unfold records. intros Hin. apply list_elem_of_In, in_map_iff in Hin.
  destruct Hin as (x & Heq & Hin). apply list_elem_of_In.
  unfold GET_CONTAINER in Heq. unfold field_addr.
  by replace (r + off) with x by lia.
Qed.

Lemma records_filter_elem_of off r x l :
  r ∈ records off (filter (λ y, y ≠ x) l) →
  r ∈ records off l ∧ r ≠ GET_CONTAINER x off.
Proof.
  unfold records. intros Hin. apply list_elem_of_In, in_map_iff in Hin.
  destruct Hin as (y & Heq & Hin). apply list_elem_of_In in Hin.
  apply list_elem_of_filter in Hin as [Hne Hin]. split.
  - apply list_elem_of_In, in_map_iff. exists y. by rewrite <- list_elem_of_In.
  - unfold GET_CONTAINER in *. lia.
Qed.

(** X8.  What the unit test does with the value 5: when one record only
    holds the value, the backward fold finds it, [remove] of what the fold
    returned takes it out and leaves a well-formed list, which
    [dlist_check] accepts, and neither fold finds the value again. *)
Theorem find_remove_find off data v miss a0 s l r fuel :
  dll s l → (length l < fuel)%nat →
  r ∈ records off l → data r = v →
  (∀ r', r' ∈ records off l → data r' = v → r' = r) →
  ∃ s' l',
    dlist_T_foldl off fuel (is_value_or data v miss) a0 s tt = Ok (r, tt) ∧
    dlist_T_remove off r s = Ok (tt, s') ∧
    l' = filter (λ y, y ≠ field_addr r off) l ∧ dll s' l' ∧
    dlist_T_check fuel s' = Ok (tt, s') ∧
    dlist_T_foldl off fuel (is_value_or data v miss) a0 s' tt
    = Ok (match l' with [] => a0 | _ :: _ => miss end, tt) ∧
    dlist_T_foldr off fuel (is_value_or data v miss) a0 s' tt
    = Ok (match l' with [] => a0 | _ :: _ => miss end, tt).
Proof.
  intros Hdll Hfuel Hr Hv Huniq.
  pose proof (records_elem_of off r l Hr) as Hx.
  destruct (remove_spec s l _ Hdll Hx) as (s' & Hrun & Hdll' & _).
  assert (Hlen : (length (filter (λ y, y ≠ field_addr r off) l) < fuel)%nat).
  { pose proof (length_filter (λ y, y ≠ field_addr r off) l). lia. }
  assert (Hnd : NoDup (records off (rev l))).
  { apply records_inj. apply NoDup_ListNoDup, List.NoDup_rev, NoDup_ListNoDup.
    by destruct Hdll as (_ & _ & _ & ?). }
  assert (Hrb : r ∈ records off (rev l)).
  { unfold records in *. rewrite map_rev. apply list_elem_of_In, in_rev.
    rewrite rev_involutive. by apply list_elem_of_In. }
  apply list_elem_of_split in Hrb as (pre & post & Hsplit).
  assert (Hpre : Forall (λ r', data r' ≠ v) pre).
  { apply Forall_forall. intros r' Hr' Hv'.
    rewrite Hsplit in Hnd. apply NoDup_app in Hnd as (_ & Hdis & _).
    apply (Hdis r' Hr'). rewrite (Huniq r'); [left| |done].
    unfold records in *. rewrite map_rev in Hsplit.
    apply list_elem_of_In, in_rev. rewrite Hsplit.
    apply list_elem_of_In, elem_of_app. by left. }
  assert (Hgone : Forall (λ r', data r' ≠ v)
                    (records off (filter (λ y, y ≠ field_addr r off) l))).
  { apply Forall_forall. intros r' Hr' Hv'.
    apply records_filter_elem_of in Hr' as [Hin Hne].
    rewrite container_field in Hne. apply Hne. by apply Huniq. }
  destruct (fold_miss off data v miss a0 s' _ fuel Hdll' Hlen Hgone)
    as [Hfr Hfl].
  exists s', (filter (λ y, y ≠ field_addr r off) l). split_and!; try done.
  - rewrite (foldl_spec off _ fuel s l) by done.
    by rewrite Hsplit, (reduce_find_hit data v miss).
  - by apply (check_spec fuel s' _ Hdll').
Qed.

Lemma find_remove_find_witness :
  ∃ s', dlist_T_foldl 0 4 (is_value_or (λ r, r / 16) 2 NULL) NULL linked3 tt
        = Ok (32, tt) ∧
        dlist_T_remove 0 32 linked3 = Ok (tt, s') ∧
        dlist_T_foldl 0 4 (is_value_or (λ r, r / 16) 2 NULL) NULL s' tt
        = Ok (NULL, tt).
Proof.
  destruct (find_remove_find 0 (λ r, r / 16) 2 NULL NULL linked3 [16; 32; 48] 32 4)
    as (s' & l' & Hfind & Hrem & -> & _ & _ & Hgone & _).
  - solve_dll.
  - vm_compute. lia.
  - by_computation.
  - reflexivity.
  - intros r' Hr' Hv'. vm_compute in Hr'.
    repeat (apply elem_of_cons in Hr' as [->|Hr']; [by vm_compute in Hv'|]).
    by apply elem_of_nil in Hr'.
  - exists s'. split_and!; [done|done|exact Hgone].
Defined.

(** ** Peeks *)

Lemma pop_returns_head s p s' :
  dlist_pop s = Ok (p, s') → p = head (root s).
Proof.
  destruct s as [[hd0 tl0] h]. unfold dlist_pop. mrun.
  destruct (Z.eqb_spec hd0 NULL) as [->|Hne]; [by intros [= <- _]|].
  destruct (deref h hd0) as [n|] eqn:Hd.
  - rewrite (bind_load_next _ _ _ _ _ Hd). mrun.
    destruct (tl0 =? hd0); mrun; [by intros [= <- _]|].
    destruct (deref h (next n)) as [n'|] eqn:Hd'.
    + rewrite (bind_store_prev _ _ _ _ _ _ Hd'). mrun. by intros [= <- _].
    + by rewrite (bind_store_prev_fault _ _ _ _ _ Hd').
  - by rewrite (bind_load_next_fault _ _ _ _ Hd).
Qed.

Lemma dequeue_returns_tail s p s' :
  dlist_dequeue s = Ok (p, s') → p = tail (root s).
Proof.
  destruct s as [[hd0 tl0] h]. unfold dlist_dequeue. mrun.
  destruct (Z.eqb_spec tl0 NULL) as [->|Hne]; [by intros [= <- _]|].
  destruct (deref h tl0) as [n|] eqn:Hd.
  - rewrite (bind_load_prev _ _ _ _ _ Hd). mrun.
    destruct (hd0 =? tl0); mrun; [by intros [= <- _]|].
    destruct (deref h (prev n)) as [n'|] eqn:Hd'.
    + rewrite (bind_store_next _ _ _ _ _ _ Hd'). mrun. by intros [= <- _].
    + by rewrite (bind_store_next_fault _ _ _ _ _ Hd').
  - by rewrite (bind_load_prev_fault _ _ _ _ Hd).
Qed.

(** X9.  The peeks tell what the removals will return, on any handle and
    any memory, well-formed or not: whenever [dlist_pop] returns, it
    returns the node that [dlist_head] showed just before, and whenever
    [dlist_dequeue] returns, the node that [dlist_tail] showed. *)
Theorem peek_then_remove s a p s' :
  (h ← dlist_head; p ← dlist_pop; mret (h, p)) s = Ok ((a, p), s') ∨
  (t ← dlist_tail; p ← dlist_dequeue; mret (t, p)) s = Ok ((a, p), s') →
  a = p.
Proof.
  destruct s as [r h]. intros [Hrun|Hrun]; revert Hrun.
  - unfold dlist_head. rewrite bind_get_head.
    unfold mbind at 1, M_bind at 1.
    destruct (dlist_pop _) as [[p' s'']| | | |] eqn:Hpop; try done.
    intros [= <- <- _]. symmetry. by apply (pop_returns_head _ _ _ Hpop).
  - unfold dlist_tail. rewrite bind_get_tail.
    unfold mbind at 1, M_bind at 1.
    destruct (dlist_dequeue _) as [[p' s'']| | | |] eqn:Hdeq; try done.
    intros [= <- <- _]. symmetry. by apply (dequeue_returns_tail _ _ _ Hdeq).
Qed.

Lemma peek_then_remove_witness :
  ∃ a p s',
    (h ← dlist_head; p ← dlist_pop; mret (h, p)) linked3 = Ok ((a, p), s') ∧
    a = p.
Proof.
  eexists 16, 16, _.
  assert (Hrun : (h ← dlist_head; p ← dlist_pop; mret (h, p)) linked3
                 = Ok ((16, 16), mk_state (mk_root 32 48)
                                   (<[32 := mk_node 48 NULL]> (mem linked3)))).
  { vm_compute. reflexivity. }
  split; [exact Hrun|].
  apply (peek_then_remove linked3 16 16 _ (or_introl Hrun)).
Defined.

(** ** The assertions of the insertions *)

(** X10.  The assertions of the insertions, for a live node [x].
    [dlist_enqueue] fails an assertion, instead of linking the node, when
    the head is absent and the tail is not, and when the head is a node
    other than [x] whose [prev] is present; [dlist_pushback] when the tail
    is absent and the head is not, and when the tail is a node other than
    [x] whose [next] is present.  When [x] is itself the head,
    [dlist_enqueue] has cleared its [prev] before the assertion looks at
    it: the call returns and leaves [x] linked to itself; likewise
    [dlist_pushback] of the tail. *)
Theorem insert_guards s x nx :
  deref (mem s) x = Some nx →
  (head (root s) = NULL → tail (root s) ≠ NULL → dlist_enqueue x s = AssertFail) ∧
  (∀ n, head (root s) ≠ x → deref (mem s) (head (root s)) = Some n →
        prev n ≠ NULL → dlist_enqueue x s = AssertFail) ∧
  (head (root s) = x →
     dlist_enqueue x s
     = Ok (tt, mk_state (mk_root x (tail (root s)))
                 (<[x := mk_node x x]> (mem s)))) ∧
  (tail (root s) = NULL → head (root s) ≠ NULL → dlist_pushback x s = AssertFail) ∧
  (∀ n, tail (root s) ≠ x → deref (mem s) (tail (root s)) = Some n →
        next n ≠ NULL → dlist_pushback x s = AssertFail) ∧
  (tail (root s) = x →
     dlist_pushback x s
     = Ok (tt, mk_state (mk_root (head (root s)) x)
                 (<[x := mk_node x x]> (mem s)))).
Proof.
  destruct s as [[hd0 tl0] h]. cbn [root head tail mem]. intros Hdx.
  pose proof (deref_lookup _ _ _ Hdx) as [Hx _].
  split_and!.
  - intros -> Htl. unfold dlist_enqueue.
    rewrite (bind_store_prev _ _ _ _ _ _ Hdx). mrun.
    rewrite (bind_store_next _ _ _ _ _ _ (deref_insert_eq _ _ _ Hx)). mrun.
    by rewrite (eqb_ne tl0 NULL), bind_assert_false.
  - intros n Hne Hdh Hprev. pose proof (deref_lookup _ _ _ Hdh) as [Hh _].
    unfold dlist_enqueue.
    rewrite (bind_store_prev _ _ _ _ _ _ Hdx). mrun.
    rewrite (bind_store_next _ _ _ _ _ _ (deref_insert_eq _ _ _ Hx)). mrun.
    rewrite (eqb_ne hd0 NULL) by done. mrun.
    assert (Hdh' : deref (<[x := mk_node hd0 NULL]>
                            (<[x := mk_node (next nx) NULL]> h)) hd0 = Some n).
    { by rewrite !deref_insert_ne. }
    rewrite (bind_load_prev _ _ _ _ _ Hdh'). mrun.
    by rewrite (eqb_ne (prev n) NULL), bind_assert_false.
  - intros ->. unfold dlist_enqueue.
    rewrite (bind_store_prev _ _ _ _ _ _ Hdx). mrun.
    rewrite (bind_store_next _ _ _ _ _ _ (deref_insert_eq _ _ _ Hx)). mrun.
    rewrite (eqb_ne x NULL) by done. mrun.
    rewrite (bind_load_prev _ _ _ _ _ (deref_insert_eq _ _ _ Hx)). mrun.
    rewrite (bind_store_prev _ _ _ _ _ _ (deref_insert_eq _ _ _ Hx)). mrun.
    by rewrite !insert_insert_eq.
  - intros -> Hhd. unfold dlist_pushback.
    rewrite (bind_store_next _ _ _ _ _ _ Hdx). mrun.
    rewrite (bind_store_prev _ _ _ _ _ _ (deref_insert_eq _ _ _ Hx)). mrun.
    by rewrite (eqb_ne hd0 NULL), bind_assert_false.
  - intros n Hne Hdt Hnext. pose proof (deref_lookup _ _ _ Hdt) as [Ht _].
    unfold dlist_pushback.
    rewrite (bind_store_next _ _ _ _ _ _ Hdx). mrun.
    rewrite (bind_store_prev _ _ _ _ _ _ (deref_insert_eq _ _ _ Hx)). mrun.
    rewrite (eqb_ne tl0 NULL) by done. mrun.
    assert (Hdt' : deref (<[x := mk_node NULL tl0]>
                            (<[x := mk_node NULL (prev nx)]> h)) tl0 = Some n).
    { by rewrite !deref_insert_ne. }
    rewrite (bind_load_next _ _ _ _ _ Hdt'). mrun.
    by rewrite (eqb_ne (next n) NULL), bind_assert_false.
  - intros ->. unfold dlist_pushback.
    rewrite (bind_store_next _ _ _ _ _ _ Hdx). mrun.
    rewrite (bind_store_prev _ _ _ _ _ _ (deref_insert_eq _ _ _ Hx)). mrun.
    rewrite (eqb_ne x NULL) by done. mrun.
    rewrite (bind_load_next _ _ _ _ _ (deref_insert_eq _ _ _ Hx)). mrun.
    rewrite (bind_store_next _ _ _ _ _ _ (deref_insert_eq _ _ _ Hx)). mrun.
    by rewrite !insert_insert_eq.
Qed.

Lemma insert_guards_witness :
  dlist_enqueue 16 (mk_state (mk_root NULL 32) (sample_mem 2)) = AssertFail ∧
  dlist_enqueue 16 (mk_state (mk_root 32 32) (sample_mem 2)) = AssertFail ∧
  dlist_enqueue 16 (mk_state (mk_root 16 16) (sample_mem 2))
  = Ok (tt, mk_state (mk_root 16 16) (<[16 := mk_node 16 16]> (sample_mem 2))) ∧
  dlist_pushback 16 (mk_state (mk_root 32 NULL) (sample_mem 2)) = AssertFail ∧
  dlist_pushback 16 (mk_state (mk_root 32 32) (sample_mem 2)) = AssertFail.
Proof.
  split_and!.
  - destruct (insert_guards (mk_state (mk_root NULL 32) (sample_mem 2))
                16 (mk_node 170 85) eq_refl) as (H & _). by apply H.
  - destruct (insert_guards (mk_state (mk_root 32 32) (sample_mem 2))
                16 (mk_node 170 85) eq_refl) as (_ & H & _).
    apply (H (mk_node 170 85)); by vm_compute.
  - destruct (insert_guards (mk_state (mk_root 16 16) (sample_mem 2))
                16 (mk_node 170 85) eq_refl) as (_ & _ & H & _). by apply H.
  - destruct (insert_guards (mk_state (mk_root 32 NULL) (sample_mem 2))
                16 (mk_node 170 85) eq_refl) as (_ & _ & _ & H & _). by apply H.
  - destruct (insert_guards (mk_state (mk_root 32 32) (sample_mem 2))
                16 (mk_node 170 85) eq_refl) as (_ & _ & _ & _ & H & _).
    apply (H (mk_node 170 85)); by vm_compute.
Defined.

(** ** The two ends do not interfere *)

Lemma root_ext (r1 r2 : dlist_t) :
  head r1 = head r2 → tail r1 = tail r2 → r1 = r2.
Proof. destruct r1, r2. cbn. by intros -> ->. Qed.

(** X11.  On a well-formed list, for two distinct live nodes neither of
    which is linked in the list, an insertion at the front and an
    insertion at the back can be done in either order:
    [dlist_enqueue] of the one and [dlist_pushback] of the other give
    the same list, the same handle and the same links whichever comes
    first. *)
Theorem enqueue_pushback_commute s l x y :
  dll s l → valid_node (mem s) x → valid_node (mem s) y →
  x ∉ l → y ∉ l → x ≠ y →
  ∃ s1 s2,
    (dlist_enqueue x;; dlist_pushback y) s = Ok (tt, s1) ∧
    (dlist_pushback y;; dlist_enqueue x) s = Ok (tt, s2) ∧
    dll s1 (x :: l ++ [y]) ∧ dll s2 (x :: l ++ [y]) ∧
    root s1 = root s2 ∧
    ∀ z, z ≠ NULL → mem s1 !! z = mem s2 !! z.
Proof.
  intros Hdll Hvx Hvy Hx Hy Hxy.
  destruct (enqueue_spec s l x Hdll Hvx Hx) as (sa & Hra & Hda & Hdoma & Hfa).
  destruct (pushback_spec sa (x :: l) y Hda) as (s1 & Hr1 & Hd1 & _ & Hf1).
  { by apply (valid_node_dom (mem s)). }
  { apply not_elem_of_cons. split; [done|done]. }
  destruct (pushback_spec s l y Hdll Hvy Hy) as (sb & Hrb & Hdb & Hdomb & Hfb).
  destruct (enqueue_spec sb (l ++ [y]) x Hdb) as (s2 & Hr2 & Hd2 & _ & Hf2).
  { by apply (valid_node_dom (mem s)). }
  { apply not_elem_of_app. split; [done|].
    apply not_elem_of_cons. split; [done|apply not_elem_of_nil]. }
  exists s1, s2. split_and!; [| |done|done| |].
  - by rewrite (bind_ok _ _ _ _ _ Hra).
  - by rewrite (bind_ok _ _ _ _ _ Hrb).
  - destruct Hd1 as (Hh1 & Ht1 & _), Hd2 as (Hh2 & Ht2 & _).
    apply root_ext; [by rewrite Hh1, Hh2|by rewrite Ht1, Ht2].
  - intros z Hz.
    destruct (decide (z ∈ x :: l ++ [y])) as [Hin|Hout].
    + destruct Hd1 as (_ & _ & Hc1 & _), Hd2 as (_ & _ & Hc2 & _).
      by apply (chain_agree _ _ NULL (x :: l ++ [y]) NULL).
    + apply not_elem_of_cons in Hout as [Hzx Hout].
      apply not_elem_of_app in Hout as [Hzl Hzy].
      apply not_elem_of_cons in Hzy as [Hzy _].
      assert (Hzh : ∀ l', z ∉ l' → z ≠ hd NULL l').
      { intros [|a l'] Hn; [done|]. cbn [hd]. intros ->. apply Hn. left. }
      assert (Hzt : ∀ l', z ∉ l' → z ≠ List.last l' NULL).
      { intros l' Hn. destruct (decide (l' = [])) as [->|Hl']; [done|].
        intros ->. apply Hn. by apply dlast_elem_of. }
      rewrite Hf1, Hfa, Hf2, Hfb; try done.
      * by apply Hzt.
      * apply Hzh. apply not_elem_of_app. split; [done|].
        apply not_elem_of_cons. split; [done|apply not_elem_of_nil].
      * by apply Hzh.
      * apply Hzt. by apply not_elem_of_cons.
Qed.

Lemma enqueue_pushback_commute_witness :
  ∃ s1 s2,
    (dlist_enqueue 32;; dlist_pushback 48)
      (mk_state (mk_root 16 16) (<[16 := mk_node NULL NULL]> (sample_mem 3)))
    = Ok (tt, s1) ∧
    (dlist_pushback 48;; dlist_enqueue 32)
      (mk_state (mk_root 16 16) (<[16 := mk_node NULL NULL]> (sample_mem 3)))
    = Ok (tt, s2) ∧
    dll s1 [32; 16; 48] ∧ dll s2 [32; 16; 48] ∧ root s1 = root s2.
Proof.
  destruct (enqueue_pushback_commute
              (mk_state (mk_root 16 16) (<[16 := mk_node NULL NULL]> (sample_mem 3)))
              [16] 32 48)
    as (s1 & s2 & H1 & H2 & D1 & D2 & Hr & _).
  - solve_dll.
  - split; [by vm_compute|vm_compute; eauto].
  - split; [by vm_compute|vm_compute; eauto].
  - by_computation.
  - by_computation.
  - done.
  - exists s1, s2. by split_and!.
Defined.

(** ** The end of a list's life *)

(** X12.  [dlist_destroy] goes through exactly on the empty list: on a
    well-formed list with a node left it calls [panic]; after as many
    [pop] as the list has nodes it succeeds and leaves the poison in the
    handle, and [dlist_init] then makes the handle an empty list again. *)
Theorem drain_then_destroy off s l :
  dll s l →
  (l ≠ [] → ∃ msg, dlist_T_destroy s = Panic msg) ∧
  ∃ rs s1 s2 s3,
    remove_n (dlist_T_pop off) (length l) s = Ok (rs, s1) ∧
    rs = records off l ∧
    dlist_T_destroy s1 = Ok (tt, s2) ∧
    root s2 = mk_root POISON POISON ∧
    dlist_T_init s2 = Ok (tt, s3) ∧ dll s3 [].
Proof.
  intros Hdll. split.
  - intros Hl. apply destroy_nonempty. left.
    intros Hnull. by apply (dll_head_null s l Hdll) in Hnull.
  - destruct (remove_n_pop_spec off s l Hdll) as (s1 & Hrun1 & Hdll1 & _).
    destruct (init_spec (mk_state (mk_root POISON POISON) (mem s1)))
      as (s3 & Hrun3 & Hdll3 & _).
    exists (records off l), s1, (mk_state (mk_root POISON POISON) (mem s1)), s3.
    split_and!; try done.
    apply destroy_empty.
    + by apply (dll_head_null s1 []).
    + by apply (dll_tail_null s1 []).
Qed.

Lemma drain_then_destroy_witness :
  (∃ msg, dlist_T_destroy linked3 = Panic msg) ∧
  ∃ s1 s2, remove_n (dlist_T_pop 0) 3 linked3 = Ok ([16; 32; 48], s1) ∧
           dlist_T_destroy s1 = Ok (tt, s2) ∧ root s2 = mk_root POISON POISON.
Proof.
  destruct (drain_then_destroy 0 linked3 [16; 32; 48])
    as (Hp & rs & s1 & s2 & s3 & H1 & -> & H2 & H3 & _); [solve_dll|].
  split; [by apply Hp|]. exists s1, s2. by split_and!.
Defined.
